(** * normalize_tags.py: a shallow embedding and its verification

    The program scans Markdown files, reads the YAML front matter of each,
    rewrites spelling variants of one tag to a canonical form, and either
    reports the files it would change or rewrites them after saving a
    backup.  This file embeds the program function by function and proves
    (or refutes) the properties its specification states.

    Conventions of the embedding:
    - a Python [str] is the list of its Unicode code points ([list N]);
    - a value decoded from YAML is a [value]; floating point numbers,
      timestamps and binary scalars are outside the model;
    - a Python call that may raise returns an [outcome];
    - [yaml.safe_load], [yaml.safe_dump], the globbing of the working
      directory and the failures of the file system are parameters. *)

From Stdlib Require Import ZArith NArith Lia.
From stdpp Require Import base option list strings gmap.

Set Warnings "-register-all".
Open Scope N_scope.

(** ** Python strings *)

Module Py.

(** A [str] is a sequence of code points. *)
Definition str := list N.

(** The code points of an ASCII literal. *)
Definition u (s : string) : str :=
  Ascii.N_of_ascii <$> String.list_ascii_of_string s.

(** The line feed, which a Rocq literal cannot hold. *)
Definition NL : str := [10].

(** [Py_UNICODE_ISSPACE]: the code points [str.strip] removes and the
    class [\s] of a Unicode pattern accepts. *)
Definition isspace (c : N) : bool :=
  ((0x09 <=? c) && (c <=? 0x0D)) || ((0x1C <=? c) && (c <=? 0x20))
  || (c =? 0x85) || (c =? 0xA0) || (c =? 0x1680)
  || ((0x2000 <=? c) && (c <=? 0x200A))
  || (c =? 0x2028) || (c =? 0x2029) || (c =? 0x202F) || (c =? 0x205F)
  || (c =? 0x3000).

(** [s.lstrip()] *)
Fixpoint lstrip (s : str) : str :=
  match s with
  | c :: s' => if isspace c then lstrip s' else s
  | [] => []
  end.

(** [s.rstrip()] *)
Definition rstrip (s : str) : str := reverse (lstrip (reverse s)).

(** [s.strip()] *)
Definition strip (s : str) : str := rstrip (lstrip s).

(** [s.startswith(pre)] *)
Fixpoint startswith (pre s : str) : bool :=
  match pre, s with
  | [], _ => true
  | a :: pre', b :: s' => (a =? b) && startswith pre' s'
  | _ :: _, [] => false
  end.

(** The text before and the text after the leftmost occurrence of [sep]
    in [s] ([s.partition(sep)] without its middle), [None] when [sep]
    does not occur. *)
Fixpoint find_sep (sep s : str) {struct s} : option (str * str) :=
  if startswith sep s then Some ([], drop (length sep) s)
  else match s with
       | [] => None
       | c :: s' =>
           match find_sep sep s' with
           | Some (a, b) => Some (c :: a, b)
           | None => None
           end
       end.

(** [s.split(sep, maxsplit)] for a non-empty [sep]. *)
Fixpoint split (sep : str) (maxsplit : nat) (s : str) : list str :=
  match maxsplit with
  | O => [s]
  | S n =>
      match find_sep sep s with
      | None => [s]
      | Some (a, rest) => a :: split sep n rest
      end
  end.

(** [c in s] for one character. *)
Definition mem_char (c : N) (s : str) : bool := existsb (N.eqb c) s.

(** [sep.join(parts)] *)
Fixpoint join (sep : str) (parts : list str) : str :=
  match parts with
  | [] => []
  | [p] => p
  | p :: rest => p ++ sep ++ join sep rest
  end.

(** ** Values and exceptions *)

(** What [yaml.safe_load] builds: [None], booleans, integers, strings,
    lists and dicts.  A dict keeps its keys in insertion order. *)
Inductive value : Type :=
| VNone
| VBool (b : bool)
| VInt (n : Z)
| VStr (s : str)
| VList (items : list value)
| VDict (items : list (value * value)).

Inductive exn : Type :=
| TypeError | ValueError | IndexError | AttributeError | OSError
| YAMLError.

(** The result of a call: a value, or a raised exception. *)
Inductive outcome (A : Type) : Type :=
| Ret (a : A)
| Raise (e : exn).
Arguments Ret {A} a.
Arguments Raise {A} e.

#[export] Instance outcome_ret : MRet outcome := fun A a => Ret a.
#[export] Instance outcome_bind : MBind outcome := fun A B f m =>
  match m with
  | Ret a => f a
  | Raise e => Raise e
  end.

(** [bool(v)] *)
Definition truthy (v : value) : bool :=
  match v with
  | VNone => false
  | VBool b => b
  | VInt n => negb (n =? 0)%Z
  | VStr s => negb (bool_decide (s = []))
  | VList l => negb (bool_decide (length l = O))
  | VDict d => negb (bool_decide (length d = O))
  end.

(** [hash(v)] succeeds: lists and dicts are unhashable. *)
Definition hashable (v : value) : bool :=
  match v with
  | VList _ | VDict _ => false
  | _ => true
  end.

Definition int_of_bool (b : bool) : Z := if b then 1%Z else 0%Z.

(** [a == b] on hashable values, as a dict compares its keys: [True]
    equals [1] and [False] equals [0]. *)
Definition key_eq (a b : value) : bool :=
  match a, b with
  | VNone, VNone => true
  | VBool x, VBool y => bool_decide (x = y)
  | VBool x, VInt y => (int_of_bool x =? y)%Z
  | VInt x, VBool y => (x =? int_of_bool y)%Z
  | VInt x, VInt y => (x =? y)%Z
  | VStr x, VStr y => bool_decide (x = y)
  | _, _ => false
  end.

(** [list(dict.fromkeys(l))], with the keys inserted so far in [seen]:
    hashing an entry may raise, an entry equal to a key already present
    leaves the dict as it is, a new one is added at the end. *)
Fixpoint fromkeys_from (seen l : list value) : outcome (list value) :=
  match l with
  | [] => Ret seen
  | t :: l' =>
      if hashable t then
        if existsb (key_eq t) seen then fromkeys_from seen l'
        else fromkeys_from (seen ++ [t]) l'
      else Raise TypeError
  end.

Definition fromkeys (l : list value) : outcome (list value) :=
  fromkeys_from [] l.

(** [l[i]] *)
Definition getitem {A} (l : list A) (i : nat) : outcome A :=
  match l !! i with
  | Some x => Ret x
  | None => Raise IndexError
  end.

Definition is_list (v : value) : bool :=
  match v with VList _ => true | _ => false end.

Definition is_dict (v : value) : bool :=
  match v with VDict _ => true | _ => false end.

(** [d.get(k)] for a hashable [k]: [None] when the key is absent. *)
Fixpoint dict_get (k : value) (d : list (value * value)) : value :=
  match d with
  | [] => VNone
  | (k', v) :: d' => if key_eq k k' then v else dict_get k d'
  end.

(** [d[k] = v]: the value is replaced where the key is, and the pair is
    added at the end when it is new. *)
Fixpoint dict_setitem (k v : value) (d : list (value * value))
  : list (value * value) :=
  match d with
  | [] => [(k, v)]
  | (k', v') :: d' =>
      if key_eq k k' then (k', v) :: d' else (k', v') :: dict_setitem k v d'
  end.

(** ** Paths ([pathlib]) *)

(** A relative path is the list of its parts. *)
Definition Path := list str.

(** [str(p)] *)
Definition path_str (p : Path) : str := join (u "/") p.

(** [p.name] *)
Definition name (p : Path) : str := default [] (last p).

(** [s.rfind(c)] for one character, [None] for -1. *)
Fixpoint rfind (c : N) (s : str) : option nat :=
  match s with
  | [] => None
  | x :: s' =>
      match rfind c s' with
      | Some i => Some (S i)
      | None => if x =? c then Some O else None
      end
  end.

(** [p.suffix]: the name from its last dot on, when that dot is neither
    the first nor the last character of the name. *)
Definition suffix (p : Path) : str :=
  let nm := name p in
  match rfind 0x2E nm with
  | Some i =>
      if (0 <? i)%nat && (i <? length nm - 1)%nat then drop i nm else []
  | None => []
  end.

(** [p.with_name(nm)] on the parts. *)
Definition set_name (p : Path) (nm : str) : Path :=
  take (length p - 1) p ++ [nm].

(** [p.with_suffix(suf)] *)
Definition with_suffix (p : Path) (suf : str) : outcome Path :=
  if mem_char 0x2F suf then Raise ValueError
  else if (negb (bool_decide (suf = [])) && negb (startswith (u ".") suf))
          || bool_decide (suf = u ".") then Raise ValueError
  else
    let nm := name p in
    if bool_decide (nm = []) then Raise ValueError
    else
      let old_suffix := suffix p in
      if bool_decide (old_suffix = []) then Ret (set_name p (nm ++ suf))
      else Ret (set_name p (take (length nm - length old_suffix) nm ++ suf)).

End Py.
Import Py.

(** ** The regular expressions of [re], as far as the program uses them *)

Module Re.

(** [Py_UNICODE_TOLOWER], the simple lower-case mapping, on the ASCII
    range and on the two other code points whose image is an ASCII
    letter (U+0130 and the Kelvin sign U+212A).  The rows of the Unicode
    table that stay outside ASCII play no part in a pattern of ASCII
    letters and are not listed. *)
Definition unicode_tolower (c : N) : N :=
  if (0x41 <=? c) && (c <=? 0x5A) then c + 32
  else if c =? 0x130 then 0x69
  else if c =? 0x212A then 0x6B
  else c.

(** [_sre.unicode_iscased] on the characters of an ASCII pattern. *)
Definition unicode_iscased (c : N) : bool :=
  ((0x41 <=? c) && (c <=? 0x5A)) || ((0x61 <=? c) && (c <=? 0x7A)).

(** [sre_compile._extra_cases]: the lower-case letters that ignore-case
    matching identifies with an ASCII letter: i with the dotless i
    U+0131, s with the long s U+017F. *)
Definition extra_cases (lo : N) : list N :=
  if lo =? 0x69 then [0x131]
  else if lo =? 0x73 then [0x17F]
  else [].

Inductive class_item : Type :=
| CSpace            (* \s *)
| CChar (c : N).

Inductive regex : Type :=
| Eps
| Bol               (* ^ *)
| Eol               (* $ *)
| Lit (c : N)
| Class (items : list class_item)
| Opt (r : regex)   (* r? , greedy *)
| Seq (r1 r2 : regex)
| Group (r : regex).

Fixpoint lits (w : str) : regex :=
  match w with
  | [] => Eps
  | c :: w' => Seq (Lit c) (lits w')
  end.

Definition mem (x : N) (l : list N) : bool := existsb (N.eqb x) l.

(** A literal of the pattern against the character [x] of the subject:
    with IGNORECASE a cased literal is compiled to its lower case and
    its extra cases, and the subject character is lowered. *)
Definition lit_matches (ignorecase : bool) (c x : N) : bool :=
  if ignorecase && unicode_iscased c then
    let lo := unicode_tolower c in
    mem (unicode_tolower x) (lo :: extra_cases lo)
  else x =? c.

Definition item_cased (it : class_item) : bool :=
  match it with
  | CSpace => false
  | CChar c => unicode_iscased c
  end.

(** A character class: with IGNORECASE the subject character is lowered
    only when the class holds a cased literal. *)
Definition class_matches (ignorecase : bool) (items : list class_item)
  (x : N) : bool :=
  let y := if ignorecase && existsb item_cased items
           then unicode_tolower x else x in
  existsb (fun it =>
    match it with
    | CSpace => isspace y
    | CChar c =>
        if ignorecase then
          let lo := unicode_tolower c in mem y (lo :: extra_cases lo)
        else y =? c
    end) items.

(** Backtracking matcher: [run r pos s k] matches [r] at offset [pos],
    where [s] is the rest of the subject, and hands the offset and the
    rest after the match to [k]. *)
Fixpoint run (ignorecase : bool) (r : regex) (pos : nat) (s : str)
  (k : nat -> str -> bool) : bool :=
  match r with
  | Eps => k pos s
  | Bol => match pos with O => k pos s | S _ => false end
  | Eol =>
      match s with
      | [] => k pos s
      | [c] => (c =? 10) && k pos s
      | _ => false
      end
  | Lit c =>
      match s with
      | x :: s' => lit_matches ignorecase c x && k (S pos) s'
      | [] => false
      end
  | Class items =>
      match s with
      | x :: s' => class_matches ignorecase items x && k (S pos) s'
      | [] => false
      end
  | Opt r' => run ignorecase r' pos s k || k pos s
  | Seq r1 r2 =>
      run ignorecase r1 pos s (fun pos' s' => run ignorecase r2 pos' s' k)
  | Group r' => run ignorecase r' pos s k
  end.

(** [pattern.match(s)] is not [None]: a match starting at offset 0. *)
Definition re_match (ignorecase : bool) (r : regex) (s : str) : bool :=
  run ignorecase r O s (fun _ _ => true).

End Re.
Import Re.

(** ** The program: constants and the Normalizer *)

(** [VARIANT_RE = re.compile(r'^(online[\s\-_]?privacy)$', re.IGNORECASE)] *)
Definition VARIANT_PATTERN : regex :=
  Seq Bol
    (Seq (Group (Seq (lits (u "online"))
                   (Seq (Opt (Class [CSpace; CChar 0x2D; CChar 0x5F]))
                      (lits (u "privacy")))))
       Eol).

Definition VARIANT_RE (s : str) : bool := re_match true VARIANT_PATTERN s.

Definition CANONICAL : str := u "online-privacy".

(** The key ["tags"] of the front matter. *)
Definition k_tags : value := VStr (u "tags").

(** [isinstance(t, str) and VARIANT_RE.match(t.strip())] *)
Definition is_variant (t : value) : bool :=
  match t with
  | VStr s => VARIANT_RE (strip s)
  | _ => false
  end.

(** The [for] loop of [normalize_tags], from the entries still to visit,
    the list [final] built so far and the flag [changed]. *)
Fixpoint normalize_loop (tags_list final : list value) (changed : bool)
  : list value * bool :=
  match tags_list with
  | [] => (final, changed)
  | t :: rest =>
      if is_variant t then normalize_loop rest (final ++ [VStr CANONICAL]) true
      else normalize_loop rest (final ++ [t]) changed
  end.

Definition normalize_tags (tags_list : list value)
  : outcome (list value * bool) :=
  let '(final, changed) := normalize_loop tags_list [] false in
  final' ← fromkeys final;
  mret (final', changed).


(** ** The program: Parser, Writer and orchestration *)

(** What the run does to the outside: a file written, a line printed. *)
Inductive event : Type :=
| EvWrite (p : Path) (content : str)
| EvPrint (line : str).

(** The regular files of the working directory with their decoded text
    ([read_text(encoding='utf-8', errors='ignore')] of their bytes), and
    the events of the run so far. *)
Record world : Type := World {
  files : gmap Path str;
  trace : list event
}.

(** The options after [parse_args]. *)
Record Args : Type := MkArgs { dry_run : bool; apply : bool }.

Definition GLOBS : list str :=
  [u "_posts/**/*.md"; u "_posts/**/*.markdown"; u "**/*.md";
   u "**/*.markdown"].

Definition EXCLUDE_DIRS : list str :=
  [u ".git"; u "_site"; u ".jekyll-cache"; u "node_modules"].

Definition should_skip (path : Path) : bool :=
  existsb (fun part => bool_decide (part ∈ EXCLUDE_DIRS)) path.

Definition DELIM : str := u "---".

Definition print (line : str) (w : world) : world :=
  World (files w) (trace w ++ [EvPrint line]).

(** [p.is_file()] *)
Definition is_file (w : world) (p : Path) : bool :=
  bool_decide (is_Some (files w !! p)).

(** [p.read_text(...)] *)
Definition read_text (w : world) (p : Path) : outcome str :=
  match files w !! p with
  | Some text => Ret text
  | None => Raise OSError
  end.

(** ** PyYAML on the documents of the examples

    The program is verified for every loader and dumper.  The two
    functions below give PyYAML's results on the front matter used in the
    concrete examples: block mappings from plain keys to plain scalars or
    to block sequences. *)

Module Fixture.

Definition k_title : value := VStr (u "title").

Definition yaml_variant : str :=
  NL ++ u "title: Notes" ++ NL ++ u "tags:" ++ NL ++ u "- Online Privacy"
  ++ NL ++ u "- security" ++ NL.
Definition yaml_canonical : str :=
  NL ++ u "title: Notes" ++ NL ++ u "tags:" ++ NL ++ u "- online-privacy"
  ++ NL ++ u "- security" ++ NL.
Definition yaml_only_canonical : str :=
  NL ++ u "tags:" ++ NL ++ u "- online-privacy" ++ NL.
Definition yaml_duplicates : str :=
  NL ++ u "tags:" ++ NL ++ u "- security" ++ NL ++ u "- security" ++ NL.
Definition yaml_nested : str :=
  NL ++ u "tags:" ++ NL ++ u "- [a]" ++ NL ++ u "- Online Privacy" ++ NL.
Definition yaml_scalar : str := NL ++ u "just a sentence" ++ NL.

Definition safe_load (s : str) : outcome value :=
  if bool_decide (s = yaml_variant) then
    Ret (VDict [(k_title, VStr (u "Notes"));
                (k_tags, VList [VStr (u "Online Privacy");
                                VStr (u "security")])])
  else if bool_decide (s = yaml_canonical) then
    Ret (VDict [(k_title, VStr (u "Notes"));
                (k_tags, VList [VStr (u "online-privacy");
                                VStr (u "security")])])
  else if bool_decide (s = yaml_only_canonical) then
    Ret (VDict [(k_tags, VList [VStr (u "online-privacy")])])
  else if bool_decide (s = yaml_duplicates) then
    Ret (VDict [(k_tags, VList [VStr (u "security"); VStr (u "security")])])
  else if bool_decide (s = yaml_nested) then
    Ret (VDict [(k_tags, VList [VList [VStr (u "a")];
                                VStr (u "Online Privacy")])])
  else if bool_decide (s = yaml_scalar) then
    Ret (VStr (u "just a sentence"))
  else Raise YAMLError.

Definition dump_item (v : value) : str :=
  match v with
  | VStr s => u "- " ++ s ++ NL
  | _ => u "- null" ++ NL
  end.

Definition dump_pair (kv : value * value) : str :=
  match kv with
  | (VStr k, VStr s) => k ++ u ": " ++ s ++ NL
  | (VStr k, VList l) => k ++ u ":" ++ NL ++ concat (dump_item <$> l)
  | _ => []
  end.

Definition safe_dump (v : value) : str :=
  match v with
  | VDict (kv :: d) => concat (dump_pair <$> (kv :: d))
  | _ => u "{}" ++ NL
  end.

(** Documents around these front matters. *)
Definition body : str := NL ++ NL ++ u "Hello" ++ NL.

Definition doc (yaml_text : str) : str :=
  u "---" ++ yaml_text ++ u "---" ++ body.

Definition doc_variant : str := doc yaml_variant.
Definition doc_canonical : str :=
  u "---" ++ yaml_canonical ++ u "---" ++ NL ++ u "Hello" ++ NL.
Definition doc_only_canonical : str :=
  u "---" ++ yaml_only_canonical ++ u "---" ++ NL ++ u "Hello" ++ NL.
Definition doc_duplicates : str := doc yaml_duplicates.
Definition doc_nested : str := doc yaml_nested.
Definition doc_scalar : str := doc yaml_scalar.
Definition doc_broken : str := doc (NL ++ u "tags: [" ++ NL).

Definition front_variant : list (value * value) :=
  [(k_title, VStr (u "Notes"));
   (k_tags, VList [VStr (u "Online Privacy"); VStr (u "security")])].
Definition front_canonical : list (value * value) :=
  [(k_title, VStr (u "Notes"));
   (k_tags, VList [VStr (u "online-privacy"); VStr (u "security")])].

(** A tag whose words are separated by a tab. *)
Definition tabbed : str := u "online" ++ [9] ++ u "privacy".

(** A working directory with one post, found by two of the globs. *)
Definition post : Path := [u "_posts"; u "a.md"].
Definition post_bak : Path := [u "_posts"; u "a.md.bak"].

Definition world_of (text : str) : world := World {[ post := text ]} [].

Definition glob (fs : gmap Path str) (g : str) : list Path :=
  if bool_decide (g = u "_posts/**/*.md") || bool_decide (g = u "**/*.md")
  then (if bool_decide (is_Some (fs !! post)) then [post] else [])
  else [].

Definition never_fails (tr : list event) (p : Path) : bool := false.

End Fixture.

(** PyYAML on two more front matters: one without the key "tags", one
    with an empty tag list. *)

Module Untagged.

Definition yaml_title : str := NL ++ u "title: Notes" ++ NL.
Definition yaml_no_tags : str := NL ++ u "tags: []" ++ NL.

Definition safe_load (s : str) : outcome value :=
  if bool_decide (s = yaml_title) then
    Ret (VDict [(Fixture.k_title, VStr (u "Notes"))])
  else if bool_decide (s = yaml_no_tags) then
    Ret (VDict [(k_tags, VList [])])
  else Fixture.safe_load s.

Definition doc_title : str := Fixture.doc yaml_title.
Definition doc_no_tags : str := Fixture.doc yaml_no_tags.

(** A working directory with a post and a page of a generated site; the
    post is found by two of the globs, the page by one. *)
Definition site_page : Path := [u "_site"; u "a.md"].

Definition world_site (text : str) : world :=
  World {[ Fixture.post := text; site_page := text ]} [].

Definition glob (fs : gmap Path str) (g : str) : list Path :=
  if bool_decide (g = u "_posts/**/*.md") then [Fixture.post]
  else if bool_decide (g = u "**/*.md") then [site_page; Fixture.post]
  else [].

End Untagged.

Section Program.

#[local] Set Default Proof Using "Type".

(** [yaml.safe_load] and [yaml.safe_dump(_, sort_keys=False)]. *)
Variable safe_load : str -> outcome value.
Variable safe_dump : value -> str.

(** [Path(".").glob(g)] on the files present. *)
Variable glob : gmap Path str -> str -> list Path.

(** Whether a [write_text] to a path fails, given the events so far. *)
Variable write_fails : list event -> Path -> bool.

Definition load_front_matter (text : str) : outcome (option value * str) :=
  if negb (startswith DELIM text) then mret (None, text)
  else
    let parts := split DELIM 2 text in
    if (length parts <? 3)%nat then mret (None, text)
    else
      yaml_text ← getitem parts 1;
      body ← getitem parts 2;
      match safe_load yaml_text with
      | Raise _ => mret (None, text)
      | Ret front =>
          if negb (is_dict front) then mret (None, text)
          else mret (Some front, body)
      end.

(** [front["tags"] = new_tags] *)
Definition set_tags (front : value) (new_tags : list value) : outcome value :=
  match front with
  | VDict d => Ret (VDict (dict_setitem k_tags (VList new_tags) d))
  | _ => Raise TypeError
  end.

(** [front.get("tags")] *)
Definition get_tags (front : value) : outcome value :=
  match front with
  | VDict d => Ret (dict_get k_tags d)
  | _ => Raise AttributeError
  end.

(** [process_file] from the text read on. *)
Definition process_text (text : str) : outcome (option (str * str)) :=
  '(front, body) ← load_front_matter text;
  match front with
  | None => mret None
  | Some front =>
      if negb (truthy front) then mret None
      else
        tags ← get_tags front;
        if negb (truthy tags) || negb (is_list tags) then mret None
        else
          match tags with
          | VList tags_list =>
              '(new_tags, changed) ← normalize_tags tags_list;
              if negb changed then mret None
              else
                front' ← set_tags front new_tags;
                let new_yaml := strip (safe_dump front') in
                let new_text :=
                  u "---" ++ NL ++ new_yaml ++ NL ++ u "---" ++ NL
                  ++ lstrip body in
                mret (Some (new_text, text))
          | _ => Raise TypeError
          end
  end.

Definition process_file (w : world) (p : Path)
  : outcome (option (str * str)) :=
  text ← read_text w p;
  process_text text.

(** [p.write_text(content)] *)
Definition write_text (p : Path) (content : str) (w : world)
  : outcome unit * world :=
  if write_fails (trace w) p then (Raise OSError, w)
  else (Ret (), World (<[p := content]> (files w))
                      (trace w ++ [EvWrite p content])).

Definition change : Type := Path * str * str.

(** The loop of [main] over the files found. *)
Fixpoint scan (w : world) (all_files : list Path) (changes : list change)
  : outcome (list change) :=
  match all_files with
  | [] => Ret changes
  | p :: rest =>
      if negb (is_file w p) || should_skip p then scan w rest changes
      else
        result ← process_file w p;
        match result with
        | Some (new, old) => scan w rest (changes ++ [(p, new, old)])
        | None => scan w rest changes
        end
  end.

Definition updated_line (p bak : Path) : str :=
  u "Updated " ++ path_str p ++ u " (backup: " ++ path_str bak ++ u ")".

(** The loop of [main] under [# Apply]. *)
Fixpoint apply_changes (changes : list change) (w : world)
  : outcome unit * world :=
  match changes with
  | [] => (Ret (), w)
  | (p, new, old) :: rest =>
      match with_suffix p (suffix p ++ u ".bak") with
      | Raise e => (Raise e, w)
      | Ret bak =>
          match write_text bak old w with
          | (Raise e, w1) => (Raise e, w1)
          | (Ret _, w1) =>
              match write_text p new w1 with
              | (Raise e, w2) => (Raise e, w2)
              | (Ret _, w2) =>
                  apply_changes rest (print (updated_line p bak) w2)
              end
          end
      end
  end.

Definition will_update (w : world) (c : change) : world :=
  print (u "Will update: " ++ path_str c.1.1) w.

Definition main (args : Args) (w : world) : outcome Z * world :=
  let args :=
    if negb (apply args) then MkArgs true (apply args) else args in
  let all_files := concat (glob (files w) <$> GLOBS) in
  match scan w all_files [] with
  | Raise e => (Raise e, w)
  | Ret changes =>
      match changes with
      | [] => (Ret 0%Z, print (u "No files with tag variants found.") w)
      | _ :: _ =>
          let w1 := foldl will_update w changes in
          if dry_run args then
            (Ret 0%Z,
             print (NL ++ u "Dry-run only. Run with --apply to perform changes.")
               w1)
          else
            match apply_changes changes w1 with
            | (Raise e, w2) => (Raise e, w2)
            | (Ret _, w2) => (Ret 0%Z, print (NL ++ u "Done.") w2)
            end
      end
  end.

(** ** Notions used to state the properties *)

(** [sep] occurs in [s] at offset [i]. *)
Definition occurs_at (sep s : str) (i : nat) : Prop :=
  ∃ pre post, s = pre ++ sep ++ post ∧ length pre = i.

(** [a] and [b] are the text before and after the leftmost occurrence of
    [sep] in [s]. *)
Definition leftmost (sep s a b : str) : Prop :=
  s = a ++ sep ++ b ∧ ∀ i, (i < length a)%nat → ¬ occurs_at sep s i.

(** The document reassembled from a metadata structure and a body. *)
Definition rebuilt (front : value) (body : str) : str :=
  u "---" ++ NL ++ strip (safe_dump front) ++ NL ++ u "---" ++ NL
  ++ lstrip body.

(** The same with the dump trimmed at its end only. *)
Definition rebuilt_rstrip (front : value) (body : str) : str :=
  u "---" ++ NL ++ rstrip (safe_dump front) ++ NL ++ u "---" ++ NL
  ++ lstrip body.

(** In [d'] the key of the tag list holds [new_tags], the keys are those
    of [d] in the same order, and every other key has the value it has
    in [d]. *)
Definition only_tags_replaced (d d' : list (value * value))
  (new_tags : list value) : Prop :=
  d'.*1 = d.*1
  ∧ dict_get k_tags d' = VList new_tags
  ∧ ∀ i k v, d !! i = Some (k, v) → key_eq k_tags k = false →
      d' !! i = Some (k, v).

(** [stripped] is [body] without its leading white space. *)
Definition leading_space_stripped (body stripped : str) : Prop :=
  (∃ ws, body = ws ++ stripped ∧ Forall (λ c, isspace c = true) ws)
  ∧ ∀ c r, stripped = c :: r → isspace c = false.

(** The original path with ".bak" appended to its name. *)
Definition backup_path (p : Path) : Path := set_name p (name p ++ u ".bak").

(** A path has a name, and the name holds no separator. *)
Definition valid_path (p : Path) : Prop :=
  name p ≠ [] ∧ mem_char 0x2F (name p) = false.

(** The events of a complete apply run over the change records: per
    record the backup, then the overwrite, then the report. *)
Definition record_events (c : change) : list event :=
  let '(p, new, old) := c in
  [EvWrite (backup_path p) old; EvWrite p new;
   EvPrint (updated_line p (backup_path p))].

Definition apply_events (changes : list change) : list event :=
  changes ≫= record_events.

(** The files after the writes among [evs]. *)
Definition replay (evs : list event) (fs : gmap Path str) : gmap Path str :=
  foldl (λ fs e, match e with
                 | EvWrite p c => <[p := c]> fs
                 | EvPrint _ => fs
                 end) fs evs.

(** In [evs], the events of a run over [changes] that may have stopped
    early, the overwrite of a record is immediately preceded by the
    write of the original content to its backup path. *)
Definition backup_precedes (changes : list change) (evs : list event)
  : Prop :=
  ∀ k p new old e, changes !! k = Some (p, new, old) →
    evs !! (3 * k + 1)%nat = Some e →
    e = EvWrite p new
    ∧ evs !! (3 * k)%nat = Some (EvWrite (backup_path p) old).

(** The lines that announce the pending changes. *)
Definition will_update_lines (changes : list change) : list str :=
  (λ c : change, u "Will update: " ++ path_str c.1.1) <$> changes.

(** What a dry run prints for a change set: that nothing was found, or
    one line per pending change, in order, and the closing hint. *)
Definition dry_run_report (changes : list change) : list str :=
  match changes with
  | [] => [u "No files with tag variants found."]
  | _ :: _ =>
      will_update_lines changes
      ++ [NL ++ u "Dry-run only. Run with --apply to perform changes."]
  end.

(** The files found by the globs, in the order of the run. *)
Definition all_files_of (w : world) : list Path :=
  concat (glob (files w) <$> GLOBS).

(** The capital of an ASCII letter, any other character itself. *)
Definition ascii_upper (c : N) : N :=
  if (0x61 <=? c) && (c <=? 0x7A) then c - 32 else c.

(** A change record of the world [w]: its path is a regular file outside
    the excluded directories, its original content is the content of
    that file, and its new content is what [process_text] makes of it. *)
Definition record_of (w : world) (c : change) : Prop :=
  files w !! c.1.1 = Some c.2
  ∧ should_skip c.1.1 = false
  ∧ process_text c.2 = Ret (Some (c.1.2, c.2)).

(** The content last written to the path [x] among [evs]. *)
Fixpoint last_write (x : Path) (evs : list event) : option str :=
  match evs with
  | [] => None
  | e :: evs' =>
      match last_write x evs' with
      | Some c => Some c
      | None =>
          match e with
          | EvWrite p c => if bool_decide (p = x) then Some c else None
          | EvPrint _ => None
          end
      end
  end.

(** [sep] occurs at least twice in [s], without overlap. *)
Definition two_occurrences (sep s : str) : Prop :=
  ∃ a b c, s = a ++ sep ++ b ++ sep ++ c.

(** [text] opens with the delimiter, [meta] is the text up to the next
    delimiter and [body] the text after it. *)
Definition metadata_split (text meta body : str) : Prop :=
  ∃ r, text = DELIM ++ r ∧ leftmost DELIM r meta body.

(** The conditions under which a document has no metadata block. *)
Definition no_metadata (text : str) : Prop :=
  startswith DELIM text = false
  ∨ ¬ two_occurrences DELIM text
  ∨ ∃ meta body, metadata_split text meta body
      ∧ ((∃ e, safe_load meta = Raise e)
         ∨ (∃ v, safe_load meta = Ret v ∧ is_dict v = false)).

(** The subject character [x] is the lower-case ASCII letter [c] up to
    case, in the sense of a Unicode pattern compiled with IGNORECASE:
    the letter, its capital, and for i, k and s the code points U+0130
    and U+0131, U+212A, U+017F. *)
Definition same_letter (x c : N) : Prop :=
  x = c ∨ x + 32 = c
  ∨ (c = 0x69 ∧ (x = 0x130 ∨ x = 0x131))
  ∨ (c = 0x6B ∧ x = 0x212A)
  ∨ (c = 0x73 ∧ x = 0x17F).

(** [a] spells the lower-case ASCII word [w] up to case. *)
Definition same_word (a w : str) : Prop := Forall2 same_letter a w.

(** What the pattern accepts between the two words: nothing, or one
    character that is white space, a hyphen or an underscore. *)
Definition separator (sep : str) : Prop :=
  sep = [] ∨ ∃ c, sep = [c] ∧ (isspace c = true ∨ c = 0x2D ∨ c = 0x5F).

(** The separators of the specification's wording: the space, a hyphen
    or an underscore in its place, or nothing. *)
Definition worded_separator (sep : str) : Prop :=
  sep = [] ∨ sep = [0x20] ∨ sep = [0x2D] ∨ sep = [0x5F].

(** The two words "online" and "privacy" up to case, with a separator
    from [seps] between them, as the whole string. *)
Definition variant_text_of (seps : str → Prop) (s : str) : Prop :=
  ∃ a sep b, s = a ++ sep ++ b ∧ same_word a (u "online")
             ∧ seps sep ∧ same_word b (u "privacy").

Definition variant_text : str → Prop := variant_text_of separator.

(** A tag entry that is a string whose trimmed value is a variant. *)
Definition variant_entry_of (seps : str → Prop) (t : value) : Prop :=
  ∃ s, t = VStr s ∧ variant_text_of seps (strip s).

Definition variant_entry : value → Prop := variant_entry_of separator.

(** [out] is [tags_list] with the entries that satisfy [is_var] replaced
    by the canonical tag and every other entry kept where it is. *)
Definition replaced_in_place (is_var : value → Prop)
  (tags_list out : list value) : Prop :=
  length out = length tags_list
  ∧ ∀ i t, tags_list !! i = Some t →
      (is_var t → out !! i = Some (VStr CANONICAL))
      ∧ (¬ is_var t → out !! i = Some t).

(** The entry the loop appends for [t]. *)
Definition substituted (t : value) : value :=
  if is_variant t then VStr CANONICAL else t.

(** [l.index(x)], comparing as a dict compares keys; [None] when no
    entry equals [x]. *)
Fixpoint first_index (x : value) (l : list value) : option nat :=
  match l with
  | [] => None
  | y :: l' => if key_eq x y then Some O else S <$> first_index x l'
  end.

(** No two entries of [out] are equal, neither as Python compares them
    nor as values. *)
Definition no_equal_entries (out : list value) : Prop :=
  ∀ i j x y, i ≠ j → out !! i = Some x → out !! j = Some y →
    key_eq x y = false ∧ x ≠ y.

(** [out] holds the first occurrence of each distinct value of [l], in
    the order in which these first occurrences appear in [l]. *)
Definition first_occurrences (l out : list value) : Prop :=
  (∀ x, x ∈ l → existsb (key_eq x) out = true)
  ∧ (∀ i x, out !! i = Some x →
       ∃ n, first_index x l = Some n ∧ l !! n = Some x)
  ∧ (∀ i j x y n m, (i < j)%nat → out !! i = Some x → out !! j = Some y →
       first_index x l = Some n → first_index y l = Some m → (n < m)%nat).

(** Lower-case ASCII words. *)
Definition lower_word (w : str) : Prop := Forall (λ c, 0x61 ≤ c ≤ 0x7A) w.

(** The end of the subject after the second word, as [$] sees it. *)
Definition at_end (e : str) : bool :=
  match e with
  | [] => true
  | [c] => c =? 10
  | _ => false
  end.

(** The prefix of [s] that spells [w] up to case is consumed. *)
Fixpoint match_word (w s : str) : option str :=
  match w, s with
  | [], _ => Some s
  | c :: w', x :: s' => if lit_matches true c x then match_word w' s' else None
  | _ :: _, [] => None
  end.

Definition after_separator (r : str) : bool :=
  match match_word (u "privacy") r with
  | Some e => at_end e
  | None => false
  end.

(** * Verification *)

(** ** Strings *)

Lemma lstrip_spec (s : str) :
  ∃ ws, s = ws ++ lstrip s ∧ Forall (λ c, isspace c = true) ws.
Proof.
  induction s as [|c s [ws [E F]]]; simpl.
  - by exists [].
  - destruct (isspace c) eqn:Hc.
    + exists (c :: ws). split; [simpl; congruence | by constructor].
    + by exists [].
Qed.

Lemma lstrip_head (s : str) c r : lstrip s = c :: r → isspace c = false.
Proof.
  induction s as [|x s IH]; simpl; [done|].
  destruct (isspace x) eqn:Hx; [done|]. by intros [= -> ->].
Qed.

Lemma lstrip_id (s : str) :
  (∀ c r, s = c :: r → isspace c = false) → lstrip s = s.
Proof.
  destruct s as [|c r]; [done|]. intros H. simpl. by rewrite (H c r).
Qed.

Lemma lstrip_idem (s : str) : lstrip (lstrip s) = lstrip s.
Proof. apply lstrip_id. intros c r. apply lstrip_head. Qed.

Lemma rstrip_last (s r : str) c : rstrip s = r ++ [c] → isspace c = false.
Proof.
  unfold rstrip. intros H.
  apply (f_equal reverse) in H.
  rewrite reverse_involutive, reverse_snoc in H.
  by apply lstrip_head in H.
Qed.

Lemma strip_last (s r : str) c : strip s = r ++ [c] → isspace c = false.
Proof. apply rstrip_last. Qed.

Lemma rstrip_lstrip_id (s : str) :
  lstrip s = s → strip s = rstrip s.
Proof. unfold strip. by intros ->. Qed.

Lemma startswith_spec (pre s : str) :
  startswith pre s = true ↔ ∃ r, s = pre ++ r.
Proof.
  revert s. induction pre as [|a pre IH]; intros s; simpl.
  - split; [by exists s | done].
  - destruct s as [|b s]; simpl.
    + split; [done | by intros [r ?]].
    + rewrite andb_true_iff, N.eqb_eq, IH. split.
      * intros [-> [r ->]]. by exists r.
      * intros [r [= -> ->]]. eauto.
Qed.

Lemma startswith_drop (pre s : str) :
  startswith pre s = true → s = pre ++ drop (length pre) s.
Proof.
  intros [r ->]%startswith_spec. by rewrite drop_app_length.
Qed.

Lemma occurs_at_0 (sep s : str) :
  occurs_at sep s 0 ↔ startswith sep s = true.
Proof.
  rewrite startswith_spec. split.
  - intros (pre & post & -> & Hl). destruct pre; [|done]. by exists post.
  - intros [r ->]. by exists [], r.
Qed.

Lemma occurs_at_S (sep : str) c s i :
  occurs_at sep (c :: s) (S i) ↔ occurs_at sep s i.
Proof.
  split.
  - intros (pre & post & E & Hl). destruct pre as [|x pre]; [done|].
    simpl in *. injection E as -> ->. exists pre, post. split; [done|lia].
  - intros (pre & post & -> & Hl). exists (c :: pre), post. simpl.
    split; [done|lia].
Qed.

Lemma find_sep_unfold (sep s : str) :
  find_sep sep s =
  if startswith sep s then Some ([], drop (length sep) s)
  else match s with
       | [] => None
       | c :: s' =>
           match find_sep sep s' with
           | Some (a, b) => Some (c :: a, b)
           | None => None
           end
       end.
Proof. by destruct s. Qed.

Lemma find_sep_spec (sep s a b : str) :
  find_sep sep s = Some (a, b) ↔ leftmost sep s a b.
Proof.
  revert a b. induction s as [|c s IH]; intros a b;
    rewrite find_sep_unfold; destruct (startswith sep _) eqn:Hs.
  - apply startswith_drop in Hs. split.
    + intros [= <- <-]. split; [done | simpl; lia].
    + intros [E _]. destruct a; [|done]. destruct sep; [|done].
      simpl in *. by subst.
  - split; [done|]. intros [E _].
    destruct a; [|done]. by destruct sep.
  - split.
    + intros [= <- <-]. split; [by apply startswith_drop | simpl; lia].
    + intros [E Hleft]. destruct a as [|x a].
      * simpl in E. rewrite E. by rewrite drop_app_length.
      * exfalso. apply (Hleft O); [simpl; lia|]. by apply occurs_at_0.
  - assert (∀ x a, leftmost sep (c :: s) (x :: a) b →
                   x = c ∧ find_sep sep s = Some (a, b)) as Hcons.
    { intros x a' [E Hl]. simpl in E. injection E as -> E. split; [done|].
      apply IH. split; [done|]. intros i Hi.
      rewrite <- (occurs_at_S sep x). apply Hl. simpl. lia. }
    assert (¬ leftmost sep (c :: s) [] b) as Hnil.
    { intros [E _]. assert (startswith sep (c :: s) = true); [|congruence].
      apply startswith_spec. by exists b. }
    destruct (find_sep sep s) as [[a' b']|] eqn:Hf.
    + split.
      * intros [= <- <-]. destruct (proj1 (IH a' b') eq_refl) as [E Hl].
        split; [simpl; by rewrite <- E|].
        intros [|i] Hi; [rewrite occurs_at_0; congruence|].
        rewrite occurs_at_S. apply Hl. simpl in Hi. lia.
      * intros H. destruct a as [|x a]; [by destruct Hnil|].
        destruct (Hcons _ _ H) as [-> [= -> ->]]. done.
    + split; [done|]. intros H. destruct a as [|x a]; [by destruct Hnil|].
      by destruct (Hcons _ _ H) as [_ ?].
Qed.

(** ** The variant pattern *)

Ltac n_bools :=
  repeat match goal with
    | H : _ && _ = true |- _ => apply andb_true_iff in H as [? ?]
    | H : _ && _ = false |- _ => apply andb_false_iff in H; destruct H
    | H : _ || _ = true |- _ => apply orb_true_iff in H; destruct H
    | H : _ || _ = false |- _ => apply orb_false_iff in H as [? ?]
    | H : (_ <=? _) = true |- _ => apply N.leb_le in H
    | H : (_ <=? _) = false |- _ => apply N.leb_gt in H
    | H : (_ =? _) = true |- _ => apply N.eqb_eq in H
    | H : (_ =? _) = false |- _ => apply N.eqb_neq in H
    end.

Lemma unicode_tolower_lower (c : N) :
  0x61 ≤ c ≤ 0x7A → unicode_tolower c = c.
Proof.
  intros Hc. unfold unicode_tolower.
  repeat (case_match; try done); n_bools; lia.
Qed.

Lemma unicode_iscased_lower (c : N) :
  0x61 ≤ c ≤ 0x7A → unicode_iscased c = true.
Proof.
  intros Hc. unfold unicode_iscased. apply orb_true_iff. right.
  apply andb_true_iff. split; apply N.leb_le; lia.
Qed.

Lemma lit_matches_letter (c x : N) :
  0x61 ≤ c ≤ 0x7A → lit_matches true c x = true ↔ same_letter x c.
Proof.
  intros Hc. unfold lit_matches, same_letter.
  rewrite (unicode_iscased_lower c Hc), (unicode_tolower_lower c Hc).
  unfold mem, extra_cases, unicode_tolower.
  repeat case_match; cbn [existsb];
    rewrite ?orb_true_iff, ?orb_false_r, ?N.eqb_eq; n_bools; lia.
Qed.

Lemma lower_online : lower_word (u "online").
Proof. repeat constructor; simpl; lia. Qed.

Lemma lower_privacy : lower_word (u "privacy").
Proof. repeat constructor; simpl; lia. Qed.

Lemma match_word_spec (w s r : str) :
  lower_word w →
  match_word w s = Some r ↔ ∃ a, s = a ++ r ∧ same_word a w.
Proof.
  unfold same_word. intros Hw. revert s.
  induction Hw as [|c w Hc Hw IH]; intros s.
  - simpl. split.
    + intros [= ->]. exists []. split; [done | constructor].
    + intros (a & -> & Ha). by apply Forall2_nil_inv_r in Ha as ->.
  - destruct s as [|x s]; simpl.
    + split; [done|]. intros (a & E & Ha).
      destruct a as [|y a]; [by apply Forall2_nil_cons_inv in Ha | done].
    + assert (∀ a, x :: s = a ++ r → Forall2 same_letter a (c :: w) →
                   same_letter x c ∧ ∃ a', s = a' ++ r ∧ Forall2 same_letter a' w)
        as Hinv.
      { intros a E Ha.
        destruct a as [|y a]; [by apply Forall2_nil_cons_inv in Ha|].
        apply Forall2_cons in Ha as [Hy Ha]. simpl in E.
        injection E as -> ->. eauto. }
      destruct (lit_matches true c x) eqn:Hx.
      * apply lit_matches_letter in Hx; [|done]. rewrite IH. split.
        -- intros (a & -> & Ha). exists (x :: a). split; [done | by constructor].
        -- intros (a & E & Ha). by destruct (Hinv a E Ha) as [_ ?].
      * split; [done|]. intros (a & E & Ha).
        destruct (Hinv a E Ha) as [Hl _].
        apply lit_matches_letter in Hl; [congruence | done].
Qed.

Lemma run_lits (w : str) pos (s : str) (k : nat → str → bool) :
  run true (lits w) pos s k =
  match match_word w s with
  | Some r => k (pos + length w)%nat r
  | None => false
  end.
Proof.
  revert pos s. induction w as [|c w IH]; intros pos s; simpl.
  - by rewrite Nat.add_0_r.
  - destruct s as [|x s]; [done|]. destruct (lit_matches true c x); simpl; [|done].
    rewrite IH. by replace (S pos + length w)%nat with (pos + S (length w))%nat by lia.
Qed.

Lemma separator_class (x : N) :
  class_matches true [CSpace; CChar 0x2D; CChar 0x5F] x = true
  ↔ isspace x = true ∨ x = 0x2D ∨ x = 0x5F.
Proof.
  unfold class_matches.
  change (existsb item_cased _) with false. cbn [existsb andb].
  change (unicode_tolower 45) with 45. change (unicode_tolower 95) with 95.
  change (extra_cases 45) with (@nil N). change (extra_cases 95) with (@nil N).
  unfold mem. cbn [existsb].
  rewrite ?orb_true_iff, ?orb_false_r, ?N.eqb_eq. intuition congruence.
Qed.

Lemma VARIANT_RE_unfold (s : str) :
  VARIANT_RE s =
  match match_word (u "online") s with
  | Some r =>
      match r with
      | x :: r' =>
          class_matches true [CSpace; CChar 0x2D; CChar 0x5F] x
          && after_separator r'
      | [] => false
      end || after_separator r
  | None => false
  end.
Proof.
  unfold VARIANT_RE, re_match, VARIANT_PATTERN. cbn [run].
  rewrite run_lits. destruct (match_word (u "online") s) as [r|]; [|done].
  unfold after_separator.
  f_equal.
  - destruct r as [|x r']; [done|]. f_equal. rewrite run_lits.
    destruct (match_word (u "privacy") r') as [e|]; [|done].
    destruct e as [|c [|? ?]]; simpl; by rewrite ?andb_true_r.
  - rewrite run_lits.
    destruct (match_word (u "privacy") r) as [e|]; [|done].
    destruct e as [|c [|? ?]]; simpl; by rewrite ?andb_true_r.
Qed.

Lemma match_word_app (w a r : str) :
  lower_word w → same_word a w → match_word w (a ++ r) = Some r.
Proof. intros Hw Ha. apply match_word_spec; eauto. Qed.

Lemma at_end_spec (e : str) : at_end e = true ↔ e = [] ∨ e = [10].
Proof.
  destruct e as [|c [|? ?]]; simpl.
  - split; [intros _; by left | done].
  - rewrite N.eqb_eq. split; [intros ->; by right | by intros [?|[= ->]]].
  - split; [done | by intros [?|?]].
Qed.

Lemma after_separator_spec (r : str) :
  after_separator r = true
  ↔ ∃ b e, r = b ++ e ∧ same_word b (u "privacy") ∧ (e = [] ∨ e = [10]).
Proof.
  unfold after_separator. split.
  - destruct (match_word _ r) as [e|] eqn:Hm; [|done].
    apply match_word_spec in Hm as (b & -> & Hb); [|apply lower_privacy].
    intros He%at_end_spec. eauto.
  - intros (b & e & -> & Hb & He).
    rewrite (match_word_app _ _ _ lower_privacy Hb). by apply at_end_spec.
Qed.

(** The pattern accepts exactly a variant text, possibly followed by one
    line feed (which [$] lets through). *)
Lemma VARIANT_RE_spec (s : str) :
  VARIANT_RE s = true
  ↔ ∃ t e, s = t ++ e ∧ variant_text t ∧ (e = [] ∨ e = [10]).
Proof.
  rewrite VARIANT_RE_unfold. split.
  - destruct (match_word _ s) as [r|] eqn:Hm; [|done].
    apply match_word_spec in Hm as (a & -> & Ha); [|apply lower_online].
    intros [H|H]%orb_true_iff.
    + destruct r as [|x r']; [done|].
      apply andb_true_iff in H as [Hx Hr].
      apply separator_class in Hx.
      apply after_separator_spec in Hr as (b & e & -> & Hb & He).
      exists (a ++ [x] ++ b), e. split; [by rewrite <- !app_assoc|].
      split; [|done]. exists a, [x], b. repeat split; try done.
      right. eauto.
    + apply after_separator_spec in H as (b & e & -> & Hb & He).
      exists (a ++ b), e. split; [by rewrite <- !app_assoc|].
      split; [|done]. exists a, [], b. repeat split; try done. by left.
  - intros (t & e & -> & (a & sep & b & -> & Ha & Hsep & Hb) & He).
    rewrite <- !app_assoc.
    rewrite (match_word_app _ _ _ lower_online Ha).
    assert (after_separator (b ++ e) = true) as Hafter.
    { apply after_separator_spec. eauto. }
    destruct Hsep as [->|(c & -> & Hc)]; simpl.
    + rewrite Hafter. apply orb_true_r.
    + rewrite Hafter. apply separator_class in Hc. by rewrite Hc.
Qed.

Lemma variant_text_nonempty (t : str) : variant_text t → t ≠ [].
Proof.
  intros (a & sep & b & -> & Ha & _). apply Forall2_length in Ha.
  destruct a; [done | done].
Qed.

Lemma VARIANT_RE_strip (s : str) :
  VARIANT_RE (strip s) = true ↔ variant_text (strip s).
Proof.
  rewrite VARIANT_RE_spec. split.
  - intros (t & e & E & Ht & He). destruct He as [->| ->].
    + by rewrite E, app_nil_r.
    + by apply strip_last in E.
  - intros H. exists (strip s), []. by rewrite app_nil_r; eauto.
Qed.

Lemma is_variant_spec (t : value) : is_variant t = true ↔ variant_entry t.
Proof.
  unfold variant_entry, variant_entry_of. destruct t; simpl;
    try (split; [done | by intros (? & ? & _)]).
  rewrite VARIANT_RE_strip. split; [eauto|]. by intros (? & [= <-] & ?).
Qed.

Lemma normalize_loop_spec (tags_list final : list value) changed :
  normalize_loop tags_list final changed =
  (final ++ (substituted <$> tags_list),
   changed || existsb is_variant tags_list).
Proof.
  revert final changed.
  induction tags_list as [|t rest IH]; intros final changed; simpl.
  - by rewrite app_nil_r, orb_false_r.
  - unfold substituted at 1. destruct (is_variant t); rewrite IH.
    + by rewrite <- app_assoc, orb_true_r.
    + by rewrite <- app_assoc.
Qed.

(** ** Keys of a dict *)

Lemma int_of_bool_inj (a b : bool) : int_of_bool a = int_of_bool b → a = b.
Proof. by destruct a, b. Qed.

Lemma key_eq_refl (x : value) : hashable x = true → key_eq x x = true.
Proof.
  destruct x; simpl; try done; intros _.
  - by apply bool_decide_eq_true.
  - apply Z.eqb_refl.
  - by apply bool_decide_eq_true.
Qed.

Lemma key_eq_sym (x y : value) : key_eq x y = key_eq y x.
Proof.
  destruct x, y; simpl; try done.
  - apply bool_decide_ext. by split.
  - apply Z.eqb_sym.
  - apply Z.eqb_sym.
  - apply Z.eqb_sym.
  - apply bool_decide_ext. by split.
Qed.

Lemma key_eq_trans (x y z : value) :
  key_eq x y = true → key_eq y z = true → key_eq x z = true.
Proof.
  destruct x, y, z; simpl; try done;
    rewrite ?bool_decide_eq_true, ?Z.eqb_eq; try congruence.
  intros H1 H2. f_equal. apply int_of_bool_inj. congruence.
Qed.

Lemma key_eq_congr (x y z : value) :
  key_eq x y = true → key_eq x z = key_eq y z.
Proof.
  intros Hxy. destruct (key_eq y z) eqn:Hyz.
  - by apply (key_eq_trans x y z).
  - destruct (key_eq x z) eqn:Hxz; [|done].
    rewrite <- Hyz. symmetry. apply (key_eq_trans y x z); [|done].
    by rewrite key_eq_sym.
Qed.

Lemma key_eq_hashable (x y : value) : key_eq x y = true → hashable x = true.
Proof. by destruct x, y. Qed.

Lemma key_eq_neq (x y : value) :
  hashable x = true → key_eq x y = false → x ≠ y.
Proof. intros Hx Hxy <-. by rewrite key_eq_refl in Hxy. Qed.

Lemma existsb_key_eq (x : value) (l : list value) :
  existsb (key_eq x) l = true ↔ ∃ y, y ∈ l ∧ key_eq x y = true.
Proof.
  rewrite existsb_exists. setoid_rewrite list_elem_of_In. done.
Qed.

Lemma first_index_congr (x y : value) (l : list value) :
  key_eq x y = true → first_index x l = first_index y l.
Proof.
  intros Hxy. induction l as [|z l IH]; simpl; [done|].
  by rewrite (key_eq_congr x y z Hxy), IH.
Qed.

Lemma first_index_lt (x : value) (l : list value) n :
  first_index x l = Some n → (n < length l)%nat.
Proof.
  revert n. induction l as [|z l IH]; intros n; simpl; [done|].
  destruct (key_eq x z); [intros [= <-]; lia|].
  destruct (first_index x l) as [k|]; simpl; [|done].
  intros [= <-]. specialize (IH k eq_refl). lia.
Qed.

Lemma first_index_app_l (x : value) (l k : list value) n :
  first_index x l = Some n → first_index x (l ++ k) = Some n.
Proof.
  revert n. induction l as [|z l IH]; intros n; simpl; [done|].
  destruct (key_eq x z); [done|].
  destruct (first_index x l) as [i|]; simpl; [|done].
  intros [= <-]. by rewrite (IH i).
Qed.

Lemma first_index_None (x : value) (l : list value) :
  first_index x l = None ↔ existsb (key_eq x) l = false.
Proof.
  induction l as [|z l IH]; simpl; [done|].
  destruct (key_eq x z); simpl; [done|].
  rewrite <- IH. by destruct (first_index x l).
Qed.

Lemma first_index_app_r (x : value) (l k : list value) :
  first_index x l = None →
  first_index x (l ++ k) = (λ n, length l + n)%nat <$> first_index x k.
Proof.
  induction l as [|z l IH]; simpl.
  - intros _. by destruct (first_index x k).
  - destruct (key_eq x z); [done|].
    destruct (first_index x l) as [i|] eqn:Hi; simpl; [done|].
    intros _. rewrite IH by done. by destruct (first_index x k).
Qed.

(** ** [dict.fromkeys] keeps first occurrences *)

Lemma first_occurrences_nil : first_occurrences [] [].
Proof.
  repeat split.
  - intros x Hx. by apply elem_of_nil in Hx.
  - intros i x Hi. by rewrite lookup_nil in Hi.
  - intros i j x y n m _ Hi. by rewrite lookup_nil in Hi.
Qed.

Lemma first_occurrences_old (pre seen : list value) t i x :
  first_occurrences pre seen → seen !! i = Some x →
  ∃ n, first_index x pre = Some n ∧ first_index x (pre ++ [t]) = Some n
       ∧ (pre ++ [t]) !! n = Some x ∧ (n < length pre)%nat.
Proof.
  intros (_ & H2 & _) Hi. destruct (H2 i x Hi) as (n & Hn & Hl).
  exists n. repeat split; [done | by apply first_index_app_l | |].
  - by apply lookup_app_l_Some.
  - by apply first_index_lt in Hn.
Qed.

Lemma first_occurrences_skip (pre seen : list value) t :
  first_occurrences pre seen → existsb (key_eq t) seen = true →
  first_occurrences (pre ++ [t]) seen.
Proof.
  intros Hfo Ht. pose proof Hfo as (H1 & H2 & H3). repeat split.
  - intros x [Hx|Hx]%elem_of_app; [by apply H1|].
    apply list_elem_of_singleton in Hx as ->. done.
  - intros i x Hi.
    destruct (first_occurrences_old pre seen t i x Hfo Hi) as (n & ? & ? & ? & ?).
    eauto.
  - intros i j x y n m Hij Hi Hj Hn Hm.
    destruct (first_occurrences_old pre seen t i x Hfo Hi) as (n' & ? & ? & ? & ?).
    destruct (first_occurrences_old pre seen t j y Hfo Hj) as (m' & ? & ? & ? & ?).
    simplify_eq. by apply (H3 i j x y).
Qed.

Lemma first_occurrences_fresh (pre seen : list value) t :
  first_occurrences pre seen → existsb (key_eq t) seen = false →
  first_index t pre = None.
Proof.
  intros (H1 & _ & _) Ht. apply first_index_None.
  destruct (existsb (key_eq t) pre) eqn:Hpre; [|done].
  apply existsb_key_eq in Hpre as (p & Hp & Htp).
  apply H1, existsb_key_eq in Hp as (k & Hk & Hpk).
  assert (existsb (key_eq t) seen = true); [|congruence].
  apply existsb_key_eq. exists k. split; [done|].
  by apply (key_eq_trans t p k).
Qed.

Lemma first_occurrences_add (pre seen : list value) t :
  hashable t = true →
  first_occurrences pre seen → existsb (key_eq t) seen = false →
  first_occurrences (pre ++ [t]) (seen ++ [t]).
Proof.
  intros Hh Hfo Ht. pose proof Hfo as (H1 & H2 & H3).
  pose proof (first_occurrences_fresh pre seen t Hfo Ht) as Hfresh.
  assert (first_index t (pre ++ [t]) = Some (length pre)) as Hnew.
  { rewrite first_index_app_r by done. simpl. rewrite key_eq_refl by done.
    simpl. f_equal. lia. }
  repeat split.
  - intros x [Hx|Hx]%elem_of_app; rewrite existsb_app.
    + by rewrite H1.
    + apply list_elem_of_singleton in Hx as ->. simpl.
      rewrite key_eq_refl by done. by rewrite orb_true_r.
  - intros i x [Hi|[_ Hi]]%lookup_app_Some.
    + destruct (first_occurrences_old pre seen t i x Hfo Hi)
        as (n & ? & ? & ? & ?). eauto.
    + apply list_lookup_singleton_Some in Hi as [_ <-].
      exists (length pre). split; [done|]. by apply list_lookup_middle.
  - intros i j x y n m Hij Hi Hj Hn Hm.
    apply lookup_app_Some in Hj as [Hj|[Hlen Hj]].
    + assert (seen !! i = Some x) as Hi'.
      { apply lookup_lt_Some in Hj. rewrite lookup_app_l in Hi by lia. done. }
      destruct (first_occurrences_old pre seen t i x Hfo Hi')
        as (n' & ? & ? & ? & ?).
      destruct (first_occurrences_old pre seen t j y Hfo Hj)
        as (m' & ? & ? & ? & ?).
      simplify_eq. by apply (H3 i j x y).
    + apply list_lookup_singleton_Some in Hj as [Hj <-].
      assert (seen !! i = Some x) as Hi'.
      { rewrite lookup_app_l in Hi by lia. done. }
      destruct (first_occurrences_old pre seen t i x Hfo Hi')
        as (n' & ? & ? & ? & ?).
      simplify_eq. lia.
Qed.

Lemma fromkeys_from_spec (l pre seen out : list value) :
  first_occurrences pre seen → fromkeys_from seen l = Ret out →
  first_occurrences (pre ++ l) out.
Proof.
  revert pre seen. induction l as [|t l IH]; intros pre seen Hfo; simpl.
  - intros [= <-]. by rewrite app_nil_r.
  - destruct (hashable t) eqn:Hh; [|done].
    replace (pre ++ t :: l) with ((pre ++ [t]) ++ l) by by rewrite <- app_assoc.
    destruct (existsb (key_eq t) seen) eqn:Ht; apply IH.
    + by apply first_occurrences_skip.
    + by apply first_occurrences_add.
Qed.

Lemma fromkeys_spec (l out : list value) :
  fromkeys l = Ret out → first_occurrences l out.
Proof. apply (fromkeys_from_spec l [] []), first_occurrences_nil. Qed.

Lemma fromkeys_from_total (l seen : list value) :
  Forall (λ t, hashable t = true) l → ∃ out, fromkeys_from seen l = Ret out.
Proof.
  intros Hl. revert seen. induction Hl as [|t l Ht Hl IH]; intros seen; simpl.
  - eauto.
  - rewrite Ht. destruct (existsb (key_eq t) seen); apply IH.
Qed.

Lemma fromkeys_from_raise (l seen : list value) e :
  fromkeys_from seen l = Raise e →
  e = TypeError ∧ ∃ t, t ∈ l ∧ hashable t = false.
Proof.
  revert seen. induction l as [|t l IH]; intros seen; simpl; [done|].
  destruct (hashable t) eqn:Ht.
  - destruct (existsb (key_eq t) seen); intros [-> (x & ? & ?)]%IH;
      (split; [done|]); exists x; (split; [by right | done]).
  - intros [= <-]. split; [done|]. exists t. split; [by left | done].
Qed.

Lemma fromkeys_from_unhashable (l seen : list value) t :
  t ∈ l → hashable t = false → fromkeys_from seen l = Raise TypeError.
Proof.
  intros Hin Ht. revert seen.
  induction l as [|x l IH]; intros seen; [by apply elem_of_nil in Hin|].
  simpl. destruct (hashable x) eqn:Hx; [|done].
  apply elem_of_cons in Hin as [->|Hin]; [congruence|].
  destruct (existsb (key_eq x) seen); by apply IH.
Qed.

Lemma first_index_unhashable (x : value) (l : list value) :
  hashable x = false → first_index x l = None.
Proof.
  intros Hx. induction l as [|z l IH]; simpl; [done|].
  assert (key_eq x z = false) as ->; [|by rewrite IH].
  destruct (key_eq x z) eqn:E; [|done].
  apply key_eq_hashable in E. congruence.
Qed.

Lemma first_occurrences_hashable (l out : list value) i x :
  first_occurrences l out → out !! i = Some x → hashable x = true.
Proof.
  intros (_ & H2 & _) Hi. destruct (H2 i x Hi) as (n & Hn & _).
  destruct (hashable x) eqn:Hx; [done|].
  by rewrite first_index_unhashable in Hn.
Qed.

Lemma first_occurrences_elem (l out : list value) x :
  first_occurrences l out → x ∈ out → x ∈ l.
Proof.
  intros (_ & H2 & _) [i Hi]%list_elem_of_lookup.
  destruct (H2 i x Hi) as (n & _ & Hn). apply list_elem_of_lookup. eauto.
Qed.

Lemma first_occurrences_distinct (l out : list value) :
  first_occurrences l out → no_equal_entries out.
Proof.
  intros Hfo. pose proof Hfo as (H1 & H2 & H3).
  assert (∀ i j x y, (i < j)%nat → out !! i = Some x → out !! j = Some y →
                     key_eq x y = false) as Hlt.
  { intros i j x y Hij Hi Hj.
    destruct (H2 i x Hi) as (n & Hn & _). destruct (H2 j y Hj) as (m & Hm & _).
    pose proof (H3 i j x y n m Hij Hi Hj Hn Hm).
    destruct (key_eq x y) eqn:Hxy; [|done].
    rewrite (first_index_congr x y l Hxy) in Hn. simplify_eq. lia. }
  intros i j x y Hij Hi Hj.
  assert (key_eq x y = false) as Hxy.
  { destruct (decide (i < j)%nat); [by apply (Hlt i j)|].
    rewrite key_eq_sym. apply (Hlt j i); [lia | done | done]. }
  split; [done|]. apply key_eq_neq; [|done].
  by apply (first_occurrences_hashable l out i).
Qed.

Lemma fromkeys_from_fixed (l seen : list value) :
  Forall (λ t, hashable t = true) l → no_equal_entries (seen ++ l) →
  fromkeys_from seen l = Ret (seen ++ l).
Proof.
  intros Hl. revert seen. induction Hl as [|t l Ht Hl IH]; intros seen Hne.
  - by rewrite app_nil_r.
  - simpl. rewrite Ht.
    assert (existsb (key_eq t) seen = false) as ->.
    { destruct (existsb (key_eq t) seen) eqn:E; [|done].
      apply existsb_key_eq in E as (k & [i Hi]%list_elem_of_lookup & Hk).
      destruct (Hne i (length seen) k t) as [Hkt _].
      - apply lookup_lt_Some in Hi. lia.
      - by apply lookup_app_l_Some.
      - by apply list_lookup_middle.
      - rewrite key_eq_sym in Hk. congruence. }
    rewrite IH; [by rewrite <- app_assoc | by rewrite <- app_assoc].
Qed.

(** ** The Normalizer *)

Lemma normalize_tags_unfold (tags_list : list value) :
  normalize_tags tags_list =
  match fromkeys (substituted <$> tags_list) with
  | Ret out => Ret (out, existsb is_variant tags_list)
  | Raise e => Raise e
  end.
Proof.
  unfold normalize_tags. rewrite normalize_loop_spec. simpl.
  by destruct (fromkeys _).
Qed.

Lemma substituted_hashable (t : value) :
  hashable (substituted t) = hashable t.
Proof.
  unfold substituted. destruct (is_variant t) eqn:Hv; [|done].
  by destruct t.
Qed.

Lemma substituted_non_variant (tags_list : list value) :
  Forall (λ t, is_variant t = false) tags_list →
  substituted <$> tags_list = tags_list.
Proof.
  induction 1 as [|t l Ht Hl IH]; [done|].
  rewrite fmap_cons, IH. unfold substituted. by rewrite Ht.
Qed.

Lemma existsb_non_variant (tags_list : list value) :
  Forall (λ t, is_variant t = false) tags_list →
  existsb is_variant tags_list = false.
Proof. induction 1 as [|t l Ht Hl IH]; simpl; [done|]. by rewrite Ht. Qed.

Lemma is_variant_canonical : is_variant (VStr CANONICAL) = true.
Proof. by vm_compute. Qed.

Lemma substituted_idem (t : value) : substituted (substituted t) = substituted t.
Proof.
  unfold substituted. destruct (is_variant t) eqn:Ht.
  - by rewrite is_variant_canonical.
  - by rewrite Ht.
Qed.

(** The Normalizer raises exactly on a list with an unhashable entry. *)
Lemma normalize_tags_raise (tags_list : list value) :
  normalize_tags tags_list = Raise TypeError
  ↔ ∃ t, t ∈ tags_list ∧ hashable t = false.
Proof.
  rewrite normalize_tags_unfold. split.
  - destruct (fromkeys _) as [out|e] eqn:Hf; [done|]. intros _.
    apply fromkeys_from_raise in Hf as (_ & x & Hx & Hh).
    apply list_elem_of_fmap in Hx as (t & -> & Ht).
    exists t. by rewrite <- substituted_hashable.
  - intros (t & Ht & Hh). unfold fromkeys.
    rewrite (fromkeys_from_unhashable _ [] (substituted t)); [done | |].
    + apply list_elem_of_fmap. eauto.
    + by rewrite substituted_hashable.
Qed.

Lemma normalize_tags_total (tags_list : list value) :
  Forall (λ t, hashable t = true) tags_list →
  ∃ out, normalize_tags tags_list = Ret (out, existsb is_variant tags_list).
Proof.
  intros Hh. rewrite normalize_tags_unfold.
  destruct (fromkeys_from_total (substituted <$> tags_list) []) as [out Hout].
  - apply Forall_fmap. eapply Forall_impl; [exact Hh|]. simpl.
    intros t Ht. by rewrite substituted_hashable.
  - exists out. unfold fromkeys. by rewrite Hout.
Qed.

Lemma normalize_tags_spec (tags_list out : list value) changed :
  normalize_tags tags_list = Ret (out, changed) →
  changed = existsb is_variant tags_list
  ∧ first_occurrences (substituted <$> tags_list) out.
Proof.
  rewrite normalize_tags_unfold.
  destruct (fromkeys _) as [out'|e] eqn:Hf; [|done].
  intros [= <- <-]. split; [done|]. by apply fromkeys_spec.
Qed.

(** A second pass over the list the Normalizer returned. *)
Lemma normalize_tags_again (tags_list out : list value) :
  normalize_tags tags_list = Ret (out, true) →
  normalize_tags out = Ret (out, true).
Proof.
  intros [Hch Hfo]%normalize_tags_spec.
  rewrite normalize_tags_unfold.
  assert (substituted <$> out = out) as ->.
  { apply list_eq. intros i. rewrite list_lookup_fmap.
    destruct (out !! i) as [x|] eqn:Hi; [|done]. simpl. f_equal.
    assert (x ∈ substituted <$> tags_list) as Hx.
    { eapply first_occurrences_elem; [done|]. apply list_elem_of_lookup. eauto. }
    apply list_elem_of_fmap in Hx as (t & -> & _). apply substituted_idem. }
  assert (existsb is_variant out = true) as ->.
  { symmetry in Hch. apply existsb_exists in Hch as (t & Ht & Hv).
    destruct Hfo as (H1 & _ & _).
    assert (VStr CANONICAL ∈ substituted <$> tags_list) as Hc.
    { apply list_elem_of_fmap. exists t. unfold substituted. rewrite Hv.
      split; [done | by apply list_elem_of_In]. }
    apply H1, existsb_key_eq in Hc as (y & Hy & Hk).
    apply existsb_exists. exists y. split; [by apply list_elem_of_In|].
    destruct y; simpl in Hk; try done.
    apply bool_decide_eq_true in Hk as <-. apply is_variant_canonical. }
  unfold fromkeys. rewrite fromkeys_from_fixed; [done | |].
  - apply Forall_lookup. intros i x Hi.
    by apply (first_occurrences_hashable (substituted <$> tags_list) out i).
  - simpl. by apply first_occurrences_distinct in Hfo.
Qed.

(** C3 (amended): in the list the loop of the Normalizer builds, each
    entry that is a string whose trimmed value spells "online" and
    "privacy" up to case, with between them nothing or one character that
    is white space (a space, a tab, a line feed, a no-break space, ...),
    a hyphen or an underscore, is replaced by "online-privacy"; every
    other entry, string or not, is kept unchanged at its place. *)
Theorem variants_replaced_in_place (tags_list : list value) :
  replaced_in_place variant_entry tags_list
    (normalize_loop tags_list [] false).1.
Proof.
  rewrite normalize_loop_spec. simpl. split; [by rewrite length_fmap|].
  intros i t Hi. rewrite list_lookup_fmap, Hi. simpl. unfold substituted.
  destruct (is_variant t) eqn:Hv.
  - split; [done|]. intros Hn. destruct Hn. by apply is_variant_spec.
  - split; [|done]. intros Hn%is_variant_spec. congruence.
Qed.

(** C4: whenever the Normalizer returns, and it does on every list of
    hashable entries, the list returned holds no two equal entries and
    consists of the first occurrence of each distinct value of the list
    after substitution, in the order of these first occurrences. *)
Theorem normalize_tags_deduplicates (tags_list : list value) :
  (Forall (λ t, hashable t = true) tags_list →
   ∃ out changed, normalize_tags tags_list = Ret (out, changed))
  ∧ ∀ out changed, normalize_tags tags_list = Ret (out, changed) →
      no_equal_entries out
      ∧ first_occurrences (normalize_loop tags_list [] false).1 out.
Proof.
  split.
  - intros [out Hout]%normalize_tags_total. eauto.
  - intros out changed [_ Hfo]%normalize_tags_spec.
    rewrite normalize_loop_spec. simpl.
    split; [by apply first_occurrences_distinct in Hfo | done].
Qed.

(** ** The Parser *)

Lemma find_sep_occurrence (sep a b : str) :
  is_Some (find_sep sep (a ++ sep ++ b)).
Proof.
  induction a as [|x a IH]; rewrite find_sep_unfold.
  - assert (startswith sep ([] ++ sep ++ b) = true) as ->; [|done].
    apply startswith_spec. by exists b.
  - destruct (startswith sep _); [done|]. simpl.
    destruct IH as [[a' b'] ->]. done.
Qed.

Lemma find_sep_head (sep r : str) : find_sep sep (sep ++ r) = Some ([], r).
Proof.
  rewrite find_sep_unfold.
  assert (startswith sep (sep ++ r) = true) as ->.
  { apply startswith_spec. by exists r. }
  by rewrite drop_app_length.
Qed.

Lemma split_delim (r : str) :
  split DELIM 2 (DELIM ++ r) =
  match find_sep DELIM r with
  | Some (a, b) => [[]; a; b]
  | None => [[]; r]
  end.
Proof.
  cbn [split]. rewrite find_sep_head. by destruct (find_sep DELIM r) as [[a b]|].
Qed.

Lemma two_occurrences_delim (r : str) :
  two_occurrences DELIM (DELIM ++ r) ↔ is_Some (find_sep DELIM r).
Proof.
  split.
  - intros (a & b & c & E).
    assert (r = drop 3 (a ++ DELIM ++ b) ++ DELIM ++ c) as ->.
    { assert (DELIM ++ r = (a ++ DELIM ++ b) ++ DELIM ++ c) as E'.
      { by rewrite E, <- !app_assoc. }
      apply (f_equal (drop 3)) in E'.
      rewrite (drop_app_le (a ++ DELIM ++ b)) in E'
        by (rewrite !length_app; simpl; lia).
      exact E'. }
    apply find_sep_occurrence.
  - intros [[a b] [E _]%find_sep_spec]. exists [], a, b. by rewrite E.
Qed.

Lemma load_front_matter_no_delim (text : str) :
  startswith DELIM text = false → load_front_matter text = Ret (None, text).
Proof. intros H. unfold load_front_matter. by rewrite H. Qed.

Lemma load_front_matter_delim (r : str) :
  load_front_matter (DELIM ++ r) =
  match find_sep DELIM r with
  | None => Ret (None, DELIM ++ r)
  | Some (yaml_text, body) =>
      match safe_load yaml_text with
      | Raise _ => Ret (None, DELIM ++ r)
      | Ret front =>
          if is_dict front then Ret (Some front, body)
          else Ret (None, DELIM ++ r)
      end
  end.
Proof.
  unfold load_front_matter.
  assert (startswith DELIM (DELIM ++ r) = true) as ->.
  { apply startswith_spec. by exists r. }
  rewrite split_delim. destruct (find_sep DELIM r) as [[a b]|]; [|done].
  simpl. destruct (safe_load a) as [front|e]; [|done]. by destruct (is_dict front).
Qed.

(** The three ways through the Parser. *)
Lemma load_front_matter_result (text : str) :
  (startswith DELIM text = false
   ∧ load_front_matter text = Ret (None, text))
  ∨ (∃ r, text = DELIM ++ r ∧ find_sep DELIM r = None
          ∧ load_front_matter text = Ret (None, text))
  ∨ (∃ r yaml_text body,
       text = DELIM ++ r ∧ find_sep DELIM r = Some (yaml_text, body)
       ∧ ((∃ d, safe_load yaml_text = Ret (VDict d)
                ∧ load_front_matter text = Ret (Some (VDict d), body))
          ∨ ((∀ d, safe_load yaml_text ≠ Ret (VDict d))
             ∧ load_front_matter text = Ret (None, text)))).
Proof.
  destruct (startswith DELIM text) eqn:Hs.
  2: { left. split; [done | by apply load_front_matter_no_delim]. }
  apply startswith_spec in Hs as [r ->]. right.
  rewrite load_front_matter_delim.
  destruct (find_sep DELIM r) as [[a b]|] eqn:Hf; [right | left; eauto].
  exists r, a, b. split; [done|]. split; [done|].
  destruct (safe_load a) as [front|e]; [|by right].
  destruct front; simpl; try (by right). left. eauto.
Qed.

Lemma metadata_split_find (text meta body : str) :
  metadata_split text meta body
  ↔ ∃ r, text = DELIM ++ r ∧ find_sep DELIM r = Some (meta, body).
Proof. unfold metadata_split. by setoid_rewrite find_sep_spec. Qed.

(** C6: the Parser never raises; it returns the sentinel [(None, text)]
    exactly when the text does not begin with "---", or holds fewer than
    two delimiters, or the decoding of the metadata text fails, or the
    decoded value is not a dict; otherwise it returns the decoded dict
    and the text after the second delimiter. *)
Theorem load_front_matter_cases (text : str) :
  ∃ r, load_front_matter text = Ret r
       ∧ (r = (None, text) ↔ no_metadata text)
       ∧ (¬ no_metadata text →
          ∃ meta body d, metadata_split text meta body
            ∧ safe_load meta = Ret (VDict d) ∧ r = (Some (VDict d), body)).
Proof.
  destruct (startswith DELIM text) eqn:Hs.
  2: { exists (None, text). split; [by apply load_front_matter_no_delim|].
       split; [split; [by left | done]|]. intros Hn. destruct Hn. by left. }
  apply startswith_spec in Hs as [r0 ->].
  assert (∀ meta body, metadata_split (DELIM ++ r0) meta body →
                       find_sep DELIM r0 = Some (meta, body)) as Huniq.
  { intros meta body (r & E & Hf)%metadata_split_find.
    by apply app_inv_head in E as <-. }
  assert (startswith DELIM (DELIM ++ r0) = true) as Hstart.
  { apply startswith_spec. by exists r0. }
  rewrite load_front_matter_delim.
  destruct (find_sep DELIM r0) as [[a b]|] eqn:Hf.
  2: { assert (¬ two_occurrences DELIM (DELIM ++ r0)) as Hno.
       { rewrite two_occurrences_delim, Hf. by intros [? ?]. }
       exists (None, DELIM ++ r0). split; [done|].
       split; [split; [by right; left | done]|].
       intros Hn. destruct Hn. by right; left. }
  assert (metadata_split (DELIM ++ r0) a b) as Hsplit.
  { apply metadata_split_find. eauto. }
  assert (two_occurrences DELIM (DELIM ++ r0)) as Htwo.
  { apply two_occurrences_delim. by rewrite Hf. }
  destruct (safe_load a) as [front|e] eqn:Hload.
  2: { exists (None, DELIM ++ r0). split; [done|].
       assert (no_metadata (DELIM ++ r0)) as Hno.
       { right; right. exists a, b. split; [done|]. left. eauto. }
       split; [by split | by intros []]. }
  destruct (is_dict front) eqn:Hd.
  2: { exists (None, DELIM ++ r0). split; [done|].
       assert (no_metadata (DELIM ++ r0)) as Hno.
       { right; right. exists a, b. split; [done|]. right. eauto. }
       split; [by split | by intros []]. }
  destruct front as [| | | | |d]; try done.
  exists (Some (VDict d), b). split; [done|].
  assert (¬ no_metadata (DELIM ++ r0)) as Hyes.
  { intros [H|[H|(meta & body & Hm & H)]]; [congruence | done |].
    apply Huniq in Hm as [= <- <-].
    destruct H as [[e H]|(v & H & Hv)]; [congruence|].
    rewrite Hload in H. by injection H as <-. }
  split; [by split|]. intros _. exists a, b, d. done.
Qed.

(** ** Dicts *)

Lemma dict_setitem_get (k v : value) (d : list (value * value)) :
  hashable k = true → dict_get k (dict_setitem k v d) = v.
Proof.
  intros Hk. induction d as [|[k' v'] d IH]; simpl.
  - by rewrite key_eq_refl.
  - destruct (key_eq k k') eqn:E; simpl; by rewrite E.
Qed.

Lemma dict_setitem_keys (k v : value) (d : list (value * value)) :
  dict_get k d ≠ VNone → (dict_setitem k v d).*1 = d.*1.
Proof.
  induction d as [|[k' v'] d IH]; [done|]. cbn [dict_get dict_setitem].
  destruct (key_eq k k'); [done|]. intros H.
  rewrite !fmap_cons. f_equal. by apply IH.
Qed.

Lemma dict_setitem_other (k v : value) (d : list (value * value)) i k' v' :
  d !! i = Some (k', v') → key_eq k k' = false →
  dict_setitem k v d !! i = Some (k', v').
Proof.
  revert i. induction d as [|[k0 v0] d IH]; intros i; simpl; [done|].
  destruct i as [|i]; simpl.
  - intros [= -> ->] E. by rewrite E.
  - intros Hi E. destruct (key_eq k k0); simpl; [done|]. by apply IH.
Qed.

Lemma dict_setitem_idem (k v : value) (d : list (value * value)) :
  hashable k = true →
  dict_setitem k v (dict_setitem k v d) = dict_setitem k v d.
Proof.
  intros Hk. induction d as [|[k' v'] d IH]; simpl.
  - by rewrite key_eq_refl.
  - destruct (key_eq k k') eqn:E; simpl; rewrite E; [done|]. by rewrite IH.
Qed.

Lemma only_tags_replaced_setitem (d : list (value * value))
  (tags_list new_tags : list value) :
  dict_get k_tags d = VList tags_list →
  only_tags_replaced d (dict_setitem k_tags (VList new_tags) d) new_tags.
Proof.
  intros Hget. repeat split.
  - apply dict_setitem_keys. by rewrite Hget.
  - by apply dict_setitem_get.
  - intros i k v. apply dict_setitem_other.
Qed.

(** ** Processing one document *)

Lemma process_text_dict (text body : str) (d : list (value * value))
  (tags_list : list value) :
  load_front_matter text = Ret (Some (VDict d), body) →
  dict_get k_tags d = VList tags_list →
  process_text text =
  match tags_list with
  | [] => Ret None
  | _ :: _ =>
      match normalize_tags tags_list with
      | Raise e => Raise e
      | Ret (new_tags, true) =>
          Ret (Some (rebuilt (VDict (dict_setitem k_tags (VList new_tags) d))
                       body, text))
      | Ret (_, false) => Ret None
      end
  end.
Proof.
  intros Hload Hget.
  assert (truthy (VDict d) = true) as Hd by (by destruct d).
  unfold process_text. rewrite Hload.
  cbn -[truthy dict_get normalize_tags dict_setitem strip lstrip u k_tags].
  rewrite Hd.
  cbn -[truthy dict_get normalize_tags dict_setitem strip lstrip u k_tags].
  rewrite Hget.
  destruct tags_list as [|t l]; [done|].
  cbn -[normalize_tags dict_setitem strip lstrip u k_tags].
  destruct (normalize_tags (t :: l)) as [[new_tags [|]]|e]; done.
Qed.

Lemma process_text_inv (text new old : str) :
  process_text text = Ret (Some (new, old)) →
  ∃ d body tags_list new_tags,
    load_front_matter text = Ret (Some (VDict d), body)
    ∧ dict_get k_tags d = VList tags_list
    ∧ normalize_tags tags_list = Ret (new_tags, true)
    ∧ new = rebuilt (VDict (dict_setitem k_tags (VList new_tags) d)) body
    ∧ old = text.
Proof.
  assert ((∃ d body, load_front_matter text = Ret (Some (VDict d), body))
          ∨ load_front_matter text = Ret (None, text)) as [(d & body & Hload)|Hload].
  { destruct (load_front_matter_result text)
      as [[_ ?]|[(r & _ & _ & ?)|(r & a & b & _ & _ & [(d & _ & ?)|[_ ?]])]];
      eauto. }
  2: { unfold process_text. by rewrite Hload. }
  destruct (dict_get k_tags d) as [| | | |tags_list|] eqn:Hget.
  1-4,6: unfold process_text; rewrite Hload;
    cbn -[truthy dict_get normalize_tags k_tags]; destruct (truthy (VDict d));
    cbn -[truthy dict_get normalize_tags k_tags]; [|done];
    rewrite Hget; cbn -[truthy]; by rewrite ?orb_true_r.
  rewrite (process_text_dict text body d tags_list Hload Hget).
  destruct tags_list as [|t l]; [done|].
  destruct (normalize_tags (t :: l)) as [[new_tags [|]]|e] eqn:Hn; try done.
  intros [= <- <-]. exists d, body, (t :: l), new_tags. done.
Qed.

Lemma leading_space_stripped_lstrip (body : str) :
  leading_space_stripped body (lstrip body).
Proof. split; [apply lstrip_spec | apply lstrip_head]. Qed.

Lemma lstrip_NL (s : str) : lstrip (NL ++ s) = lstrip s.
Proof. done. Qed.

(** C7: when a document is rewritten, the metadata written back differs
    from the metadata read only in the value of the key "tags" (same
    keys, same order, same values elsewhere); the new content is "---",
    a line feed, the dump of that metadata trimmed, a line feed, "---",
    a line feed and the body without its leading white space; the
    trimming is that of trailing white space whenever the dump does not
    begin with white space; and the original content is kept beside it. *)
Theorem rewrite_touches_only_tags (text new old : str) :
  process_text text = Ret (Some (new, old)) →
  ∃ d d' body new_tags,
    load_front_matter text = Ret (Some (VDict d), body)
    ∧ only_tags_replaced d d' new_tags
    ∧ new = rebuilt (VDict d') body
    ∧ (lstrip (safe_dump (VDict d')) = safe_dump (VDict d') →
       new = rebuilt_rstrip (VDict d') body)
    ∧ leading_space_stripped body (lstrip body)
    ∧ old = text.
Proof.
  intros (d & body & tags_list & new_tags & Hload & Hget & Hn & -> & ->)
    %process_text_inv.
  exists d, (dict_setitem k_tags (VList new_tags) d), body, new_tags.
  split; [done|]. split; [by apply (only_tags_replaced_setitem d tags_list)|].
  split; [done|]. split.
  - intros Hl. unfold rebuilt, rebuilt_rstrip. by rewrite rstrip_lstrip_id.
  - split; [apply leading_space_stripped_lstrip | done].
Qed.

(** C2 (the code against the claim): when a first run rewrites a
    document and YAML reads back the metadata it wrote, a second run on
    the new content yields a change record again, with the same content:
    the document is rewritten once more. *)
Theorem second_run_rewrites_again (text body : str)
  (d : list (value * value)) (tags_list new_tags : list value) :
  load_front_matter text = Ret (Some (VDict d), body) →
  dict_get k_tags d = VList tags_list →
  normalize_tags tags_list = Ret (new_tags, true) →
  load_front_matter
    (rebuilt (VDict (dict_setitem k_tags (VList new_tags) d)) body)
  = Ret (Some (VDict (dict_setitem k_tags (VList new_tags) d)),
         NL ++ lstrip body) →
  process_text text
  = Ret (Some (rebuilt (VDict (dict_setitem k_tags (VList new_tags) d)) body,
               text))
  ∧ process_text
      (rebuilt (VDict (dict_setitem k_tags (VList new_tags) d)) body)
    = Ret (Some (rebuilt (VDict (dict_setitem k_tags (VList new_tags) d)) body,
                 rebuilt (VDict (dict_setitem k_tags (VList new_tags) d)) body)).
Proof.
  intros Hload Hget Hn Hback.
  pose proof (normalize_tags_again _ _ Hn) as Hn2.
  assert (new_tags ≠ []) as Hne.
  { intros ->. by apply normalize_tags_spec in Hn2 as [? _]. }
  assert (tags_list ≠ []) as Hne1.
  { intros ->. by apply normalize_tags_spec in Hn as [? _]. }
  split.
  - rewrite (process_text_dict text body d tags_list Hload Hget).
    destruct tags_list; [done|]. by rewrite Hn.
  - rewrite (process_text_dict _ _ _ new_tags Hback)
      by by apply dict_setitem_get.
    destruct new_tags as [|t l]; [done|]. rewrite Hn2.
    rewrite dict_setitem_idem by done.
    unfold rebuilt. by rewrite lstrip_NL, lstrip_idem.
Qed.

(** C5 (the code against the claim): a tag list with an unhashable
    entry, a nested list or mapping, makes the per-file stage raise
    [TypeError]; the exception leaves [process_file], the loop over the
    files and [main]. *)
Theorem unhashable_tag_raises (text body : str) (d : list (value * value))
  (tags_list : list value) (t : value) :
  load_front_matter text = Ret (Some (VDict d), body) →
  dict_get k_tags d = VList tags_list →
  t ∈ tags_list → hashable t = false →
  process_text text = Raise TypeError
  ∧ ∀ w p, files w !! p = Some text → should_skip p = false →
      process_file w p = Raise TypeError
      ∧ (∀ rest changes, scan w (p :: rest) changes = Raise TypeError)
      ∧ (∀ args rest, concat (glob (files w) <$> GLOBS) = p :: rest →
           main args w = (Raise TypeError, w)).
Proof.
  intros Hload Hget Ht Hh.
  assert (process_text text = Raise TypeError) as Hp.
  { rewrite (process_text_dict text body d tags_list Hload Hget).
    destruct tags_list as [|x l]; [by apply elem_of_nil in Ht|].
    assert (normalize_tags (x :: l) = Raise TypeError) as ->; [|done].
    apply normalize_tags_raise. eauto. }
  split; [done|]. intros w p Hp' Hskip.
  assert (process_file w p = Raise TypeError) as Hpf.
  { unfold process_file, read_text. by rewrite Hp'. }
  assert (∀ rest changes, scan w (p :: rest) changes = Raise TypeError)
    as Hscan.
  { intros rest changes. cbn [scan]. unfold is_file.
    rewrite Hp', Hskip, Hpf. by rewrite bool_decide_eq_true_2. }
  split; [done|]. split; [done|].
  intros args rest Hglob. unfold main. by rewrite Hglob, Hscan.
Qed.

(** C9: on a tag list without an entry that matches the variant pattern
    the changed flag is never true, whatever duplicates the list holds:
    the Normalizer returns the deduplicated list with changed = false
    (and it returns on every list of hashable entries), and a document
    with such a tag list yields no change record. *)
Theorem dedup_alone_is_no_change (tags_list : list value) :
  Forall (λ t, is_variant t = false) tags_list →
  (∀ out changed, normalize_tags tags_list = Ret (out, changed) →
     changed = false ∧ first_occurrences tags_list out)
  ∧ (Forall (λ t, hashable t = true) tags_list →
     ∃ out, normalize_tags tags_list = Ret (out, false))
  ∧ ∀ text d body,
      load_front_matter text = Ret (Some (VDict d), body) →
      dict_get k_tags d = VList tags_list →
      (∀ c, process_text text ≠ Ret (Some c))
      ∧ (Forall (λ t, hashable t = true) tags_list →
         process_text text = Ret None).
Proof.
  intros Hnv. pose proof (existsb_non_variant _ Hnv) as Hex.
  assert (∀ out changed, normalize_tags tags_list = Ret (out, changed) →
            changed = false ∧ first_occurrences tags_list out) as H1.
  { intros out changed [-> Hfo]%normalize_tags_spec.
    rewrite substituted_non_variant in Hfo by done. done. }
  assert (Forall (λ t, hashable t = true) tags_list →
          ∃ out, normalize_tags tags_list = Ret (out, false)) as H2.
  { intros [out Hout]%normalize_tags_total. rewrite Hex in Hout. eauto. }
  split; [done|]. split; [done|].
  intros text d body Hload Hget.
  rewrite (process_text_dict text body d tags_list Hload Hget).
  destruct tags_list as [|t l]; [by split|].
  destruct (normalize_tags (t :: l)) as [[out changed]|e] eqn:Hn.
  - destruct (H1 out changed eq_refl) as [-> _]. by split.
  - split; [done|]. intros [out Hout]%H2. congruence.
Qed.

(** ** Backup paths *)

Lemma rfind_spec (c : N) (s : str) i :
  rfind c s = Some i → s !! i = Some c.
Proof.
  revert i. induction s as [|x s IH]; intros i; simpl; [done|].
  destruct (rfind c s) as [j|].
  - intros [= <-]. by apply IH.
  - destruct (x =? c) eqn:E; [|done]. intros [= <-].
    apply N.eqb_eq in E as ->. done.
Qed.

Lemma suffix_drop (p : Path) :
  suffix p = [] ∨ ∃ i r, suffix p = drop i (name p) ∧ suffix p = 0x2E :: r.
Proof.
  unfold suffix. destruct (rfind 0x2E (name p)) as [i|] eqn:Hr; [|by left].
  destruct (_ && _); [|by left]. right.
  apply rfind_spec in Hr. apply drop_S in Hr as Hd.
  exists i, (drop (S i) (name p)). by rewrite Hd.
Qed.

Lemma name_minus_suffix (p : Path) :
  take (length (name p) - length (suffix p)) (name p) ++ suffix p = name p.
Proof.
  destruct (suffix_drop p) as [->|(i & r & Hs & _)].
  - rewrite app_nil_r. apply take_ge. simpl. lia.
  - rewrite Hs, length_drop.
    destruct (decide (i ≤ length (name p))%nat).
    + replace (length (name p) - (length (name p) - i))%nat with i by lia.
      apply take_drop.
    + rewrite drop_ge by lia. rewrite app_nil_r. apply take_ge. lia.
Qed.

Lemma with_suffix_bak (p bak : Path) :
  with_suffix p (suffix p ++ u ".bak") = Ret bak → bak = backup_path p.
Proof.
  unfold with_suffix, backup_path.
  repeat (case_match; try done).
  - intros [= <-]. f_equal. apply bool_decide_eq_true in H2. by rewrite H2.
  - intros [= <-]. f_equal. by rewrite app_assoc, name_minus_suffix.
Qed.

Lemma mem_char_app (c : N) (a b : str) :
  mem_char c (a ++ b) = mem_char c a || mem_char c b.
Proof. apply existsb_app. Qed.

Lemma mem_char_drop (c : N) (s : str) i :
  mem_char c s = false → mem_char c (drop i s) = false.
Proof.
  intros H. rewrite <- (take_drop i s), mem_char_app in H.
  by apply orb_false_iff in H as [_ ?].
Qed.

Lemma with_suffix_valid (p : Path) :
  valid_path p → with_suffix p (suffix p ++ u ".bak") = Ret (backup_path p).
Proof.
  intros [Hname Hsep].
  destruct (with_suffix p (suffix p ++ u ".bak")) as [bak|e] eqn:Hw.
  { by apply with_suffix_bak in Hw as ->. }
  exfalso. revert Hw. unfold with_suffix.
  assert (mem_char 47 (suffix p ++ u ".bak") = false) as ->.
  { rewrite mem_char_app. apply orb_false_iff. split; [|done].
    destruct (suffix_drop p) as [->|(i & r & -> & _)]; [done|].
    by apply mem_char_drop. }
  assert (startswith (u ".") (suffix p ++ u ".bak") = true) as ->.
  { destruct (suffix_drop p) as [->|(i & r & _ & ->)]; done. }
  rewrite andb_false_r, orb_false_l.
  repeat case_bool_decide; try done.
  match goal with
  | H : _ ++ _ = u "." |- _ =>
      apply (f_equal length) in H; rewrite length_app in H; simpl in H; lia
  end.
Qed.

(** ** The apply loop *)

Lemma replay_app (evs1 evs2 : list event) (fs : gmap Path str) :
  replay (evs1 ++ evs2) fs = replay evs2 (replay evs1 fs).
Proof. apply foldl_app. Qed.

Lemma apply_changes_spec (changes : list change) (w : world) :
  ∃ evs, trace (apply_changes changes w).2 = trace w ++ evs
         ∧ evs `prefix_of` apply_events changes
         ∧ files (apply_changes changes w).2 = replay evs (files w)
         ∧ ((apply_changes changes w).1 = Ret () → evs = apply_events changes).
Proof.
  assert (∀ evs : list event, [] `prefix_of` evs) as Hnil.
  { intros evs. by exists evs. }
  revert w. induction changes as [|[[p new] old] rest IH]; intros w.
  { exists []. simpl. by rewrite app_nil_r. }
  cbn [apply_changes].
  destruct (with_suffix p (suffix p ++ u ".bak")) as [bak|e] eqn:Hbak.
  2: { exists []. simpl. rewrite app_nil_r.
       split_and!; [done | apply Hnil | done | done]. }
  apply with_suffix_bak in Hbak as ->.
  unfold write_text.
  destruct (write_fails (trace w) (backup_path p)).
  { exists []. simpl. rewrite app_nil_r.
    split_and!; [done | apply Hnil | done | done]. }
  cbn [trace files].
  destruct (write_fails _ p).
  { exists [EvWrite (backup_path p) old]. simpl.
    split_and!; [done | apply prefix_cons, Hnil | done | done]. }
  destruct (IH (print (updated_line p (backup_path p))
                  (World (<[p:=new]> (<[backup_path p:=old]> (files w)))
                     ((trace w ++ [EvWrite (backup_path p) old])
                        ++ [EvWrite p new]))))
    as (evs & Htr & Hpre & Hfiles & Hok).
  exists (record_events (p, new, old) ++ evs).
  split_and!.
  - rewrite Htr. simpl. by rewrite <- !app_assoc.
  - unfold apply_events. rewrite bind_cons. by apply prefix_app.
  - rewrite Hfiles, replay_app. done.
  - intros Hr. unfold apply_events. rewrite bind_cons. f_equal. by apply Hok.
Qed.

Lemma apply_events_lookup (changes : list change) k p new old :
  changes !! k = Some (p, new, old) →
  apply_events changes !! (3 * k)%nat = Some (EvWrite (backup_path p) old)
  ∧ apply_events changes !! (3 * k + 1)%nat = Some (EvWrite p new).
Proof.
  revert k. induction changes as [|c rest IH]; intros k; [done|].
  unfold apply_events. rewrite bind_cons.
  destruct k as [|k]; simpl.
  - intros [= ->]. done.
  - intros Hk. destruct (IH k Hk) as [H0 H1]. destruct c as [[p' n'] o'].
    replace (k + S (k + S (k + 0)))%nat with (2 + 3 * k)%nat by lia.
    replace (k + S (k + S (k + 0)) + 1)%nat with (2 + (3 * k + 1))%nat by lia.
    done.
Qed.

Lemma prefix_backup_precedes (changes : list change) (evs : list event) :
  evs `prefix_of` apply_events changes → backup_precedes changes evs.
Proof.
  intros Hpre k p new old e Hk He.
  destruct (apply_events_lookup changes k p new old Hk) as [H0 H1].
  pose proof (prefix_lookup_Some _ _ _ _ He Hpre) as He'.
  split; [congruence|].
  destruct (lookup_lt_is_Some_2 evs (3 * k)) as [e0 He0].
  { apply lookup_lt_Some in He. lia. }
  pose proof (prefix_lookup_Some _ _ _ _ He0 Hpre). congruence.
Qed.

Lemma foldl_will_update (changes : list change) (w : world) :
  files (foldl will_update w changes) = files w
  ∧ trace (foldl will_update w changes)
    = trace w ++ (EvPrint <$> will_update_lines changes).
Proof.
  revert w. induction changes as [|c rest IH]; intros w; simpl.
  - by rewrite app_nil_r.
  - destruct (IH (will_update w c)) as [-> ->]. simpl.
    by rewrite <- app_assoc.
Qed.

Lemma apply_changes_ok (changes : list change) (w : world) :
  (∀ tr p, write_fails tr p = false) →
  Forall (λ c : change, valid_path c.1.1) changes →
  (apply_changes changes w).1 = Ret ().
Proof.
  intros Hw Hv. revert w.
  induction Hv as [|[[p new] old] rest Hp Hv IH]; intros w; [done|].
  cbn [apply_changes]. rewrite with_suffix_valid by done.
  unfold write_text. rewrite !Hw. apply IH.
Qed.

(** ** The run *)

(** C8: in apply mode, the events of the run are the announcements,
    then a prefix of "backup, overwrite, report" per change record, in
    order; so the overwrite of a record is immediately preceded by the
    write of the original content to the path with ".bak" appended, also
    when the run stops on a failing write, and when no write fails the
    whole sequence is performed. *)
Theorem backup_written_before_overwrite (w : world) (changes : list change) :
  scan w (all_files_of w) [] = Ret changes →
  ∃ evs lines,
    trace (main (MkArgs false true) w).2
    = trace w ++ (EvPrint <$> will_update_lines changes) ++ evs
      ++ (EvPrint <$> lines)
    ∧ evs `prefix_of` apply_events changes
    ∧ backup_precedes changes evs
    ∧ files (main (MkArgs false true) w).2 = replay evs (files w)
    ∧ ((∀ tr p, write_fails tr p = false) →
       Forall (λ c : change, valid_path c.1.1) changes →
       evs = apply_events changes
       ∧ (main (MkArgs false true) w).1 = Ret 0%Z).
Proof.
  intros Hscan. unfold main. unfold all_files_of in Hscan.
  cbn [apply negb dry_run]. rewrite Hscan.
  destruct changes as [|c cs].
  { exists [], [u "No files with tag variants found."]. simpl.
    split_and!; done. }
  clear Hscan. generalize (c :: cs). clear c cs. intros changes.
  destruct (foldl_will_update changes w) as [Hf Ht].
  destruct (apply_changes_spec changes (foldl will_update w changes))
    as (evs & Htr & Hpre & Hfiles & Hok).
  destruct (apply_changes changes (foldl will_update w changes))
    as [[[]|e] w2] eqn:Hap; simpl in *.
  - exists evs, [NL ++ u "Done."]. rewrite Htr, Ht, Hfiles, Hf. simpl.
    split_and!; try done.
    + by rewrite <- !app_assoc.
    + by apply prefix_backup_precedes.
    + intros _ _. split; [by apply Hok | done].
  - exists evs, []. rewrite Htr, Ht, Hfiles, Hf. simpl.
    split_and!; try done.
    + by rewrite app_nil_r, <- !app_assoc.
    + by apply prefix_backup_precedes.
    + intros Hw Hv.
      pose proof (apply_changes_ok changes (foldl will_update w changes) Hw Hv)
        as Hr.
      rewrite Hap in Hr. done.
Qed.

(** C10: with both flags given the run is the dry run: it behaves as
    with the dry-run flag alone, leaves every file as it is, writes no
    backup and attempts no write; when the scan completes it prints
    exactly the report of the pending changes (one "Will update" line
    per change record, in order, and the dry-run hint; or the line that
    nothing was found) and returns 0; when the scan raises, the
    exception leaves the run and nothing is printed. *)
Theorem dry_run_takes_precedence (w : world) :
  main (MkArgs true true) w = main (MkArgs true false) w
  ∧ files (main (MkArgs true true) w).2 = files w
  ∧ (∃ lines,
       trace (main (MkArgs true true) w).2 = trace w ++ (EvPrint <$> lines))
  ∧ (∀ changes, scan w (all_files_of w) [] = Ret changes →
       (main (MkArgs true true) w).1 = Ret 0%Z)
  ∧ (∀ changes, scan w (all_files_of w) [] = Ret changes →
       trace (main (MkArgs true true) w).2
       = trace w ++ (EvPrint <$> dry_run_report changes))
  ∧ (∀ p c, EvWrite p c ∈ trace (main (MkArgs true true) w).2 →
       EvWrite p c ∈ trace w)
  ∧ (∀ e, scan w (all_files_of w) [] = Raise e →
       main (MkArgs true true) w = (Raise e, w)).
Proof.
  assert (∀ lines p c, EvWrite p c ∈ trace w ++ (EvPrint <$> lines) →
                       EvWrite p c ∈ trace w) as Hprints.
  { intros lines p c [H|H]%elem_of_app; [done|].
    by apply list_elem_of_fmap in H as (? & ? & _). }
  unfold main, all_files_of. cbn [apply negb dry_run].
  destruct (scan w _ []) as [changes|e].
  2: { split_and!; try done.
       - exists []. simpl. by rewrite app_nil_r.
       - by intros ? [= <-]. }
  destruct changes as [|c cs].
  { split_and!; try done.
    - by exists [u "No files with tag variants found."].
    - by intros ? [= <-].
    - apply (Hprints [u "No files with tag variants found."]). }
  destruct (foldl_will_update (c :: cs) w) as [Hf Ht].
  assert (trace
            (print (NL ++ u "Dry-run only. Run with --apply to perform changes.")
               (foldl will_update w (c :: cs)))
          = trace w ++ (EvPrint <$> dry_run_report (c :: cs))) as Htrace.
  { cbn [print trace dry_run_report]. rewrite Ht, fmap_app.
    by rewrite <- app_assoc. }
  split_and!; try done.
  - by exists (dry_run_report (c :: cs)).
  - by intros ? [= <-].
  - cbn [snd]. rewrite Htrace. apply Hprints.
Qed.

(** * Further properties of the code *)

(** ** The Normalizer, continued *)

Lemma fromkeys_from_length (l seen out : list value) :
  fromkeys_from seen l = Ret out →
  (length seen ≤ length out ≤ length seen + length l)%nat
  ∧ (l ≠ [] → out ≠ []).
Proof.
  revert seen. induction l as [|t l IH]; intros seen; simpl.
  - intros [= <-]. split; [lia | done].
  - destruct (hashable t); [|done].
    destruct (existsb (key_eq t) seen) eqn:Hs.
    + intros [Hlen _]%IH. split; [lia|]. intros _ ->.
      destruct seen; [done | simpl in Hlen; lia].
    + intros [Hlen _]%IH. rewrite length_app in Hlen. simpl in Hlen.
      split; [lia|]. intros _ ->. simpl in Hlen. lia.
Qed.

Lemma first_occurrences_variant (tags_list out : list value) :
  first_occurrences (substituted <$> tags_list) out →
  existsb is_variant out = existsb is_variant tags_list.
Proof.
  intros Hfo. destruct (existsb is_variant tags_list) eqn:Hch.
  - apply existsb_exists in Hch as (t & Ht & Hv).
    destruct Hfo as (H1 & _ & _).
    assert (VStr CANONICAL ∈ substituted <$> tags_list) as Hc.
    { apply list_elem_of_fmap. exists t. unfold substituted. rewrite Hv.
      split; [done | by apply list_elem_of_In]. }
    apply H1, existsb_key_eq in Hc as (y & Hy & Hk).
    apply existsb_exists. exists y. split; [by apply list_elem_of_In|].
    destruct y; simpl in Hk; try done.
    apply bool_decide_eq_true in Hk as <-. apply is_variant_canonical.
  - destruct (existsb is_variant out) eqn:Hout; [|done].
    apply existsb_exists in Hout as (x & Hx%list_elem_of_In & Hv).
    apply (first_occurrences_elem _ _ _ Hfo) in Hx.
    apply list_elem_of_fmap in Hx as (t & -> & Ht).
    assert (is_variant t = false) as Hnt.
    { destruct (is_variant t) eqn:E; [|done].
      assert (existsb is_variant tags_list = true); [|congruence].
      apply existsb_exists. exists t. by rewrite <- list_elem_of_In. }
    unfold substituted in Hv. rewrite Hnt in Hv. congruence.
Qed.

(** X1: the list the Normalizer returns is a fixed point: normalising it
    again returns the same list, and the same flag. *)
Theorem normalize_tags_stable (tags_list out : list value) changed :
  normalize_tags tags_list = Ret (out, changed) →
  normalize_tags out = Ret (out, changed).
Proof.
  intros [-> Hfo]%normalize_tags_spec.
  rewrite normalize_tags_unfold.
  assert (substituted <$> out = out) as ->.
  { apply list_eq. intros i. rewrite list_lookup_fmap.
    destruct (out !! i) as [x|] eqn:Hi; [|done]. simpl. f_equal.
    assert (x ∈ substituted <$> tags_list) as Hx.
    { eapply first_occurrences_elem; [done|]. apply list_elem_of_lookup. eauto. }
    apply list_elem_of_fmap in Hx as (t & -> & _). apply substituted_idem. }
  rewrite (first_occurrences_variant tags_list out Hfo).
  unfold fromkeys. rewrite fromkeys_from_fixed; [done | |].
  - apply Forall_lookup. intros i x Hi.
    by apply (first_occurrences_hashable (substituted <$> tags_list) out i).
  - simpl. by apply first_occurrences_distinct in Hfo.
Qed.

(** X2: the flag is true exactly when the canonical tag is in the list
    returned. *)
Theorem changed_iff_canonical (tags_list out : list value) changed :
  normalize_tags tags_list = Ret (out, changed) →
  changed = true ↔ VStr CANONICAL ∈ out.
Proof.
  intros [-> Hfo]%normalize_tags_spec.
  rewrite <- (first_occurrences_variant tags_list out Hfo). split.
  - intros (x & Hx%list_elem_of_In & Hv)%existsb_exists.
    pose proof (first_occurrences_elem _ _ _ Hfo Hx) as Hin.
    apply list_elem_of_fmap in Hin as (t & E & _).
    unfold substituted in E. destruct (is_variant t) eqn:Ht; subst x; [done|].
    congruence.
  - intros Hc. apply existsb_exists. exists (VStr CANONICAL).
    split; [by apply list_elem_of_In | apply is_variant_canonical].
Qed.

(** X3: the Normalizer never lengthens a tag list and never empties one. *)
Theorem normalize_tags_length (tags_list out : list value) changed :
  normalize_tags tags_list = Ret (out, changed) →
  (length out ≤ length tags_list)%nat ∧ (tags_list ≠ [] → out ≠ []).
Proof.
  rewrite normalize_tags_unfold.
  destruct (fromkeys _) as [out'|e] eqn:Hf; [|done]. intros [= <- _].
  apply fromkeys_from_length in Hf as [Hlen Hne].
  rewrite length_fmap in Hlen. simpl in Hlen. split; [lia|].
  intros Ht. apply Hne. by destruct tags_list.
Qed.

(** X4: nothing is invented and no other string is lost: an entry of the
    list returned is the canonical tag or an entry of the input that is
    no variant, and every string of the input that is no variant is in
    the list returned. *)
Theorem normalize_tags_entries (tags_list out : list value) changed :
  normalize_tags tags_list = Ret (out, changed) →
  (∀ x, x ∈ out →
     x = VStr CANONICAL ∨ (x ∈ tags_list ∧ is_variant x = false))
  ∧ (∀ s, VStr s ∈ tags_list → is_variant (VStr s) = false →
       VStr s ∈ out).
Proof.
  intros [_ Hfo]%normalize_tags_spec. split.
  - intros x Hx. apply (first_occurrences_elem _ _ _ Hfo) in Hx.
    apply list_elem_of_fmap in Hx as (t & -> & Ht). unfold substituted.
    destruct (is_variant t) eqn:Hv; [by left | by right].
  - intros s Hs Hv. destruct Hfo as (H1 & _ & _).
    assert (VStr s ∈ substituted <$> tags_list) as Hin.
    { apply list_elem_of_fmap. exists (VStr s). unfold substituted.
      by rewrite Hv. }
    apply H1, existsb_key_eq in Hin as (y & Hy & Hk).
    destruct y; simpl in Hk; try done.
    by apply bool_decide_eq_true in Hk as <-.
Qed.

Lemma lstrip_app_space (ws s : str) :
  Forall (λ c, isspace c = true) ws → lstrip (ws ++ s) = lstrip s.
Proof. induction 1 as [|c ws Hc Hws IH]; simpl; [done|]. by rewrite Hc. Qed.

Lemma lstrip_all_space (ws : str) :
  Forall (λ c, isspace c = true) ws → lstrip ws = [].
Proof. induction 1 as [|c ws Hc Hws IH]; simpl; [done|]. by rewrite Hc. Qed.

Lemma lstrip_app_nonspace (s r : str) :
  lstrip s ≠ [] → lstrip (s ++ r) = lstrip s ++ r.
Proof.
  induction s as [|c s IH]; simpl; [done|].
  destruct (isspace c); [exact IH | done].
Qed.

Lemma lstrip_nil_all_space (s : str) :
  lstrip s = [] → Forall (λ c, isspace c = true) s.
Proof.
  induction s as [|c s IH]; simpl; [constructor|].
  destruct (isspace c) eqn:Hc; [|done]. intros H. constructor; auto.
Qed.

Lemma rstrip_app_space (s ws : str) :
  Forall (λ c, isspace c = true) ws → rstrip (s ++ ws) = rstrip s.
Proof.
  intros Hws. unfold rstrip. rewrite reverse_app.
  rewrite lstrip_app_space; [done|]. by apply Forall_reverse.
Qed.

Lemma strip_padding (ws1 s ws2 : str) :
  Forall (λ c, isspace c = true) ws1 → Forall (λ c, isspace c = true) ws2 →
  strip (ws1 ++ s ++ ws2) = strip s.
Proof.
  intros H1 H2. unfold strip. rewrite lstrip_app_space by done.
  destruct (lstrip s) as [|c r] eqn:Hs.
  - rewrite lstrip_all_space; [done|]. apply Forall_app. split; [|done].
    by apply lstrip_nil_all_space.
  - rewrite lstrip_app_nonspace by by rewrite Hs.
    rewrite Hs. by apply rstrip_app_space.
Qed.

(** X5: white space around a tag plays no part in its being a variant. *)
Theorem is_variant_padding (ws1 s ws2 : str) :
  Forall (λ c, isspace c = true) ws1 → Forall (λ c, isspace c = true) ws2 →
  is_variant (VStr (ws1 ++ s ++ ws2)) = is_variant (VStr s).
Proof. intros H1 H2. simpl. by rewrite strip_padding. Qed.

(** ** Processing one document, continued *)

Lemma normalize_tags_raise_only (tags_list : list value) (e : exn) :
  normalize_tags tags_list = Raise e → e = TypeError.
Proof.
  rewrite normalize_tags_unfold.
  destruct (fromkeys _) as [?|e'] eqn:Hf; [done|]. intros [= <-].
  by apply fromkeys_from_raise in Hf as [-> _].
Qed.

Lemma process_text_sentinel (text rest : str) :
  load_front_matter text = Ret (None, rest) → process_text text = Ret None.
Proof. intros H. unfold process_text. by rewrite H. Qed.

(** X7: a document without a metadata block yields no change record. *)
Theorem no_metadata_no_change (text : str) :
  no_metadata text → process_text text = Ret None.
Proof.
  intros Hno. apply (process_text_sentinel text text).
  destruct (load_front_matter_result text)
    as [[_ ?]|[(r & _ & _ & ?)|(r & a & b & -> & Hf & [(d & Hl & _)|[_ ?]])]];
    try done.
  exfalso. destruct Hno as [Hs|[Htwo|(meta & body & Hm & Hbad)]].
  - assert (startswith DELIM (DELIM ++ r) = true); [|congruence].
    apply startswith_spec. by exists r.
  - apply Htwo, two_occurrences_delim. by rewrite Hf.
  - apply metadata_split_find in Hm as (r' & E & Hf').
    apply app_inv_head in E as <-. rewrite Hf in Hf'. injection Hf' as <- <-.
    destruct Hbad as [[e He]|(v & Hv & Hd)]; [congruence|].
    rewrite Hl in Hv. by injection Hv as <-.
Qed.

Lemma process_text_no_tag_list (text body : str) (d : list (value * value)) :
  load_front_matter text = Ret (Some (VDict d), body) →
  (∀ t l, dict_get k_tags d ≠ VList (t :: l)) →
  process_text text = Ret None.
Proof.
  intros Hload Hno. unfold process_text. rewrite Hload.
  cbn -[truthy dict_get normalize_tags k_tags].
  destruct (truthy (VDict d)); cbn -[truthy dict_get normalize_tags k_tags];
    [|done].
  destruct (dict_get k_tags d) as [| | | |[|t l]|] eqn:Hget;
    cbn -[normalize_tags]; try done; rewrite ?orb_true_r; try done.
  by destruct (Hno t l).
Qed.

(** X8: a document whose metadata has no "tags" key, or whose "tags" value
    is not a list, or is the empty list, yields no change record. *)
Theorem no_tag_list_no_change (text body : str) (d : list (value * value)) :
  load_front_matter text = Ret (Some (VDict d), body) →
  (∀ t l, dict_get k_tags d ≠ VList (t :: l)) →
  process_text text = Ret None.
Proof. apply process_text_no_tag_list. Qed.

(** X9: [process_text] raises only [TypeError], and exactly when the tag
    list of the document holds an unhashable entry. *)
Theorem process_text_raises (text : str) (e : exn) :
  process_text text = Raise e
  ↔ e = TypeError
    ∧ ∃ d body tags_list t,
        load_front_matter text = Ret (Some (VDict d), body)
        ∧ dict_get k_tags d = VList tags_list
        ∧ t ∈ tags_list ∧ hashable t = false.
Proof.
  split.
  - assert ((∃ d body, load_front_matter text = Ret (Some (VDict d), body))
            ∨ load_front_matter text = Ret (None, text))
      as [(d & body & Hload)|Hload].
    { destruct (load_front_matter_result text)
        as [[_ ?]|[(r & _ & _ & ?)|(r & a & b & _ & _ & [(d & _ & ?)|[_ ?]])]];
        eauto. }
    2: { by rewrite (process_text_sentinel text text Hload). }
    destruct (dict_get k_tags d) as [| | | |tags_list|] eqn:Hget.
    1-4,6: rewrite (process_text_no_tag_list text body d Hload); [done|];
      intros t l; by rewrite Hget.
    rewrite (process_text_dict text body d tags_list Hload Hget).
    destruct tags_list as [|t l]; [done|].
    destruct (normalize_tags (t :: l)) as [[new_tags [|]]|e'] eqn:Hn;
      try done.
    intros [= ->]. apply normalize_tags_raise_only in Hn as Hr.
    subst e. split; [done|].
    apply normalize_tags_raise in Hn as (x & Hx & Hh).
    exists d, body, (t :: l), x. done.
  - intros (-> & d & body & tags_list & t & Hload & Hget & Ht & Hh).
    rewrite (process_text_dict text body d tags_list Hload Hget).
    destruct tags_list as [|x l]; [by apply elem_of_nil in Ht|].
    assert (normalize_tags (x :: l) = Raise TypeError) as ->; [|done].
    apply normalize_tags_raise. eauto.
Qed.

(** ** Reading back a rewritten document *)

Lemma delim_not_at_NL (k post rest : str) :
  DELIM ++ post = k ++ 10 :: rest → ∃ k', k = DELIM ++ k'.
Proof.
  change DELIM with [45; 45; 45].
  destruct k as [|x [|y [|z k']]]; try done.
  intros [= <- <- <- _]. by exists k'.
Qed.

Lemma find_sep_rebuilt (y rest : str) :
  (∀ a b, y ≠ a ++ DELIM ++ b) →
  find_sep DELIM (NL ++ y ++ NL ++ DELIM ++ rest) = Some (NL ++ y ++ NL, rest).
Proof.
  intros Hy. apply find_sep_spec. split; [by rewrite <- !app_assoc|].
  intros i Hi (pre & post & E & Hlen).
  change NL with [10] in *. rewrite !length_app in Hi. cbn [app length] in *.
  destruct pre as [|c pre].
  { by change DELIM with [45; 45; 45] in E. }
  cbn [app] in E. injection E as Hc E.
  apply app_eq_inv in E as [(k & Ek & E)|(k & Ek & E)].
  - assert (∃ k', k = DELIM ++ k') as [k' ->].
    { apply (delim_not_at_NL k post (DELIM ++ rest)). exact E. }
    by destruct (Hy pre k').
  - destruct k as [|x k].
    + by change DELIM with [45; 45; 45] in E.
    + apply (f_equal length) in Ek. rewrite length_app in Ek.
      simpl in Ek, Hi, Hlen. lia.
Qed.

Lemma find_sep_None (sep s : str) :
  find_sep sep s = None → ∀ a b, s ≠ a ++ sep ++ b.
Proof.
  intros Hf a b ->. destruct (find_sep_occurrence sep a b) as [? H].
  congruence.
Qed.

(** X10: when the trimmed dump holds no "---", the Parser splits a rewritten
    document where the Writer joined it: the metadata text is the dump
    between two line feeds, and the body is a line feed and the stripped
    body; so it returns the metadata that YAML reads back from the dump. *)
Theorem rebuilt_is_read_back (front : value) (body : str)
  (d : list (value * value)) :
  (∀ a b, strip (safe_dump front) ≠ a ++ DELIM ++ b) →
  safe_load (NL ++ strip (safe_dump front) ++ NL) = Ret (VDict d) →
  load_front_matter (rebuilt front body)
  = Ret (Some (VDict d), NL ++ lstrip body).
Proof.
  intros Hy Hload. unfold rebuilt. change (u "---") with DELIM.
  rewrite load_front_matter_delim.
  rewrite (find_sep_rebuilt _ (NL ++ lstrip body) Hy).
  by rewrite Hload.
Qed.

(** ** Backup paths, continued *)

Lemma path_split (p : Path) :
  p ≠ [] → p = take (length p - 1) p ++ [name p].
Proof.
  intros Hp. destruct (last p) as [x|] eqn:Hl.
  - unfold name. rewrite Hl. simpl.
    apply last_Some in Hl as [l' ->].
    rewrite length_app. simpl.
    replace (length l' + 1 - 1)%nat with (length l') by lia.
    by rewrite take_app_length.
  - by apply last_None in Hl.
Qed.

Lemma valid_path_nonempty (p : Path) : valid_path p → p ≠ [].
Proof. intros [Hn _] ->. by apply Hn. Qed.

Lemma name_backup_path (p : Path) :
  name (backup_path p) = name p ++ u ".bak".
Proof.
  unfold backup_path, set_name, name at 1. by rewrite last_snoc.
Qed.

Lemma rfind_app (c : N) (a b : str) :
  rfind c (a ++ b) =
  match rfind c b with
  | Some i => Some (length a + i)%nat
  | None => rfind c a
  end.
Proof.
  induction a as [|x a IH]; simpl.
  - by destruct (rfind c b).
  - rewrite IH. by destruct (rfind c b).
Qed.

Lemma suffix_backup_path (p : Path) :
  valid_path p → suffix (backup_path p) = u ".bak".
Proof.
  intros [Hn _]. unfold suffix. rewrite name_backup_path, rfind_app. simpl.
  rewrite length_app. simpl.
  assert (0 < length (name p))%nat by (destruct (name p); [done | simpl; lia]).
  rewrite Nat.add_0_r.
  assert ((0 <? length (name p))%nat = true) as -> by by apply Nat.ltb_lt.
  assert ((length (name p) <? length (name p) + 4 - 1)%nat = true) as ->
    by (apply Nat.ltb_lt; lia).
  simpl. by rewrite drop_app_length.
Qed.

Lemma backup_path_inj (p q : Path) :
  valid_path p → valid_path q → backup_path p = backup_path q → p = q.
Proof.
  intros Hp Hq E.
  pose proof (path_split p (valid_path_nonempty p Hp)) as Esp.
  pose proof (path_split q (valid_path_nonempty q Hq)) as Esq.
  unfold backup_path, set_name in E.
  apply app_inj_tail in E as [Et En]. apply app_inv_tail in En.
  rewrite Esp, Esq. by rewrite Et, En.
Qed.

(** X11: [p.with_suffix(p.suffix + ".bak")] does not raise, and the backup
    of a file is another file, with the same directories,
    the name followed by ".bak" and the suffix ".bak"; and two files
    never share a backup. *)
Theorem backup_path_distinct (p q : Path) :
  valid_path p → valid_path q →
  with_suffix p (suffix p ++ u ".bak") = Ret (backup_path p)
  ∧ name (backup_path p) = name p ++ u ".bak"
  ∧ suffix (backup_path p) = u ".bak"
  ∧ take (length p - 1) (backup_path p) = take (length p - 1) p
  ∧ backup_path p ≠ p
  ∧ (backup_path p = backup_path q → p = q).
Proof.
  intros Hp Hq.
  pose proof (valid_path_nonempty p Hp) as Hne.
  pose proof (path_split p Hne) as Esp.
  split; [by apply with_suffix_valid|].
  split; [apply name_backup_path|].
  split; [by apply suffix_backup_path|].
  split.
  { unfold backup_path, set_name. rewrite take_app_le.
    - by rewrite take_take, Nat.min_id.
    - rewrite length_take. lia. }
  split; [|by apply backup_path_inj].
  intros E. rewrite Esp in E at 2. unfold backup_path, set_name in E.
  apply app_inv_head in E. injection E as E.
  apply (f_equal length) in E. rewrite length_app in E. simpl in E. lia.
Qed.

(** ** The scan *)

Lemma is_file_spec (w : world) (p : Path) :
  is_file w p = true ↔ ∃ text, files w !! p = Some text.
Proof. unfold is_file. by rewrite bool_decide_eq_true. Qed.

Lemma process_text_old (text new old : str) :
  process_text text = Ret (Some (new, old)) → old = text.
Proof. by intros (? & ? & ? & ? & _ & _ & _ & _ & ->)%process_text_inv. Qed.

Lemma scan_spec (w : world) (all_files : list Path) (init changes : list change) :
  scan w all_files init = Ret changes →
  ∃ recs, changes = init ++ recs
    ∧ Forall (record_of w) recs
    ∧ (λ c : change, c.1.1) <$> recs `sublist_of` all_files
    ∧ ∀ p text new, p ∈ all_files → files w !! p = Some text →
        should_skip p = false →
        process_text text = Ret (Some (new, text)) → (p, new, text) ∈ recs.
Proof.
  revert init. induction all_files as [|p rest IH]; intros init.
  { simpl. intros [= <-]. exists []. rewrite app_nil_r.
    split_and!; [done | constructor | done |].
    intros p text new Hp. by apply elem_of_nil in Hp. }
  cbn [scan]. destruct (negb (is_file w p) || should_skip p) eqn:Hc.
  { intros (recs & E & Hs & Hsub & Hall)%IH. exists recs.
    split_and!; [done | done | by apply sublist_cons |].
    intros p' text new [->|Hp']%elem_of_cons Hf Hk Hpt; [|by eapply Hall].
    apply orb_true_iff in Hc as [Hc|Hc]; [|congruence].
    apply negb_true_iff in Hc.
    assert (is_file w p = true); [|congruence]. apply is_file_spec. eauto. }
  apply orb_false_iff in Hc as [Hfile Hskip].
  apply negb_false_iff, is_file_spec in Hfile as [text Hfile].
  unfold process_file, read_text. rewrite Hfile. cbn [mbind outcome_bind].
  destruct (process_text text) as [[[new old]|]|e] eqn:Hpt; [| |done].
  - apply process_text_old in Hpt as Hold. subst old.
    intros (recs & E & Hs & Hsub & Hall)%IH. exists ((p, new, text) :: recs).
    split_and!.
    + by rewrite E, <- app_assoc.
    + constructor; [by split_and! | done].
    + rewrite fmap_cons. simpl. by apply sublist_skip.
    + intros p' text' new' [->|Hp']%elem_of_cons Hf Hk Hpt'.
      * rewrite Hfile in Hf. injection Hf as <-.
        rewrite Hpt in Hpt'. injection Hpt' as <-. by left.
      * right. by eapply Hall.
  - intros (recs & E & Hs & Hsub & Hall)%IH. exists recs.
    split_and!; [done | done | by apply sublist_cons |].
    intros p' text' new' [->|Hp']%elem_of_cons Hf Hk Hpt'; [|by eapply Hall].
    rewrite Hfile in Hf. injection Hf as <-. congruence.
Qed.

(** X12: the change set of a completed scan: each record names a regular
    file outside the excluded directories with the content of that file
    as its original content and the result of [process_text] as its new
    content; the records follow the order of discovery; and every
    discovered file that [process_text] rewrites has its record. *)
Theorem scan_records (w : world) (all_files : list Path)
  (changes : list change) :
  scan w all_files [] = Ret changes →
  Forall (record_of w) changes
  ∧ (λ c : change, c.1.1) <$> changes `sublist_of` all_files
  ∧ ∀ p text new, p ∈ all_files → files w !! p = Some text →
      should_skip p = false →
      process_text text = Ret (Some (new, text)) → (p, new, text) ∈ changes.
Proof. by intros (recs & -> & ?)%scan_spec. Qed.

(** ** The run, continued *)

Lemma main_no_changes (args : Args) (w : world) :
  scan w (all_files_of w) [] = Ret [] →
  main args w = (Ret 0%Z, print (u "No files with tag variants found.") w).
Proof. intros H. unfold main. unfold all_files_of in H. by rewrite H. Qed.

Lemma main_dry (args : Args) (w : world) (c : change) (cs : list change) :
  scan w (all_files_of w) [] = Ret (c :: cs) →
  apply args = false ∨ dry_run args = true →
  main args w
  = (Ret 0%Z,
     print (NL ++ u "Dry-run only. Run with --apply to perform changes.")
       (foldl will_update w (c :: cs))).
Proof.
  intros H Hargs. unfold main. unfold all_files_of in H. rewrite H.
  destruct args as [[|] [|]]; simpl in *; try done. by destruct Hargs.
Qed.

Lemma main_apply (w : world) (c : change) (cs : list change) :
  scan w (all_files_of w) [] = Ret (c :: cs) →
  main (MkArgs false true) w
  = match apply_changes (c :: cs) (foldl will_update w (c :: cs)) with
    | (Raise e, w2) => (Raise e, w2)
    | (Ret _, w2) => (Ret 0%Z, print (NL ++ u "Done.") w2)
    end.
Proof. intros H. unfold main. unfold all_files_of in H. by rewrite H. Qed.

(** X13: without [--apply] the run is the dry run, whatever [--dry-run] is:
    no file is touched and no write is attempted. *)
Theorem no_apply_no_write (args : Args) (w : world) :
  apply args = false →
  main args w = main (MkArgs true false) w
  ∧ files (main args w).2 = files w
  ∧ ∀ p c, EvWrite p c ∈ trace (main args w).2 → EvWrite p c ∈ trace w.
Proof.
  intros Ha. destruct (scan w (all_files_of w) []) as [[|c cs]|e] eqn:Hs.
  - rewrite !main_no_changes by done. simpl. split_and!; [done | done |].
    intros p c [H|H]%elem_of_app; [done|].
    by apply list_elem_of_singleton in H.
  - rewrite !(main_dry _ w c cs Hs) by auto.
    destruct (foldl_will_update (c :: cs) w) as [Hf Ht].
    cbn [snd print files trace]. rewrite Hf, Ht. split_and!; [done | done |].
    intros p x [[H|H]%elem_of_app|H]%elem_of_app; [done | |].
    + by apply list_elem_of_fmap in H as (? & ? & _).
    + by apply list_elem_of_singleton in H.
  - unfold main. unfold all_files_of in Hs. rewrite Hs. done.
Qed.

(** ** What a run writes *)

Lemma apply_events_writes (changes : list change) (p : Path) (c : str) :
  EvWrite p c ∈ apply_events changes →
  ∃ q new old, (q, new, old) ∈ changes
    ∧ ((p = q ∧ c = new) ∨ (p = backup_path q ∧ c = old)).
Proof.
  unfold apply_events. intros ([[q new] old] & Hin & Hq)%list_elem_of_bind.
  exists q, new, old. split; [done|]. simpl in Hin.
  apply elem_of_cons in Hin as [[= -> ->]|Hin]; [by right|].
  apply elem_of_cons in Hin as [[= -> ->]|Hin]; [by left|].
  by apply list_elem_of_singleton in Hin.
Qed.

Lemma apply_events_record (changes : list change) (p : Path) (new old : str) :
  (p, new, old) ∈ changes →
  EvWrite p new ∈ apply_events changes
  ∧ EvWrite (backup_path p) old ∈ apply_events changes.
Proof.
  intros Hin. unfold apply_events.
  split; apply list_elem_of_bind; exists (p, new, old); (split; [|done]);
    simpl; [by right; left | by left].
Qed.

Lemma not_excluded_bak (nm : str) : nm ++ u ".bak" ∉ EXCLUDE_DIRS.
Proof.
  assert (∀ e : str, e ∈ EXCLUDE_DIRS → ∀ r, reverse e ≠ 107 :: r) as Hk.
  { intros e He r. unfold EXCLUDE_DIRS in He.
    repeat (apply elem_of_cons in He as [->|He]; [by vm_compute|]).
    by apply elem_of_nil in He. }
  intros Hin. apply (Hk _ Hin (reverse (nm ++ u ".ba"))).
  replace (nm ++ u ".bak") with ((nm ++ u ".ba") ++ [107])
    by by rewrite <- app_assoc.
  by rewrite reverse_snoc.
Qed.

Lemma should_skip_backup (p : Path) :
  should_skip p = false → should_skip (backup_path p) = false.
Proof.
  intros Hp. unfold should_skip, backup_path, set_name in *.
  rewrite existsb_app. apply orb_false_iff. split.
  - rewrite <- (take_drop (length p - 1) p), existsb_app in Hp.
    by apply orb_false_iff in Hp as [? _].
  - simpl. rewrite orb_false_r. apply bool_decide_eq_false, not_excluded_bak.
Qed.

(** The events and the files of a run, in every mode. *)
Lemma main_trace (args : Args) (w : world) :
  ∃ evs lines1 lines2 changes,
    trace (main args w).2
    = trace w ++ (EvPrint <$> lines1) ++ evs ++ (EvPrint <$> lines2)
    ∧ files (main args w).2 = replay evs (files w)
    ∧ evs `prefix_of` apply_events changes
    ∧ Forall (record_of w) changes.
Proof.
  assert (∀ evs : list event, [] `prefix_of` evs) as Hnil.
  { intros evs. by exists evs. }
  destruct (scan w (all_files_of w) []) as [changes|e] eqn:Hs.
  2: { exists [], [], [], []. unfold main. unfold all_files_of in Hs.
       rewrite Hs. simpl. rewrite app_nil_r.
       split_and!; [done | done | done | constructor]. }
  pose proof (scan_spec _ _ _ _ Hs) as (recs & E & Hrec & _). simpl in E.
  subst recs. destruct changes as [|c cs].
  { exists [], [], [u "No files with tag variants found."], [].
    rewrite main_no_changes by done. by split_and!. }
  destruct (foldl_will_update (c :: cs) w) as [Hf Ht].
  destruct (decide (apply args = true ∧ dry_run args = false)) as [[Ha Hd]|Hno].
  - destruct args as [dr ap]. simpl in Ha, Hd. subst.
    rewrite (main_apply w c cs Hs).
    destruct (apply_changes_spec (c :: cs) (foldl will_update w (c :: cs)))
      as (evs & Htr & Hpre & Hfiles & _).
    destruct (apply_changes (c :: cs) (foldl will_update w (c :: cs)))
      as [[[]|e] w2]; simpl in *.
    + exists evs, (will_update_lines (c :: cs)), [NL ++ u "Done."], (c :: cs).
      rewrite Htr, Ht, Hfiles, Hf. split_and!; try done.
      by rewrite <- !app_assoc.
    + exists evs, (will_update_lines (c :: cs)), [], (c :: cs).
      rewrite Htr, Ht, Hfiles, Hf. split_and!; try done.
      by rewrite app_nil_r, <- !app_assoc.
  - rewrite (main_dry args w c cs Hs).
    2: { destruct args as [[|] [|]]; simpl in *; auto; by destruct Hno. }
    exists [], (will_update_lines (c :: cs)),
      [NL ++ u "Dry-run only. Run with --apply to perform changes."], (c :: cs).
    cbn [snd print files trace]. rewrite Hf, Ht.
    split_and!; try done. by rewrite <- !app_assoc.
Qed.

(** X14: in no mode does a run write into an excluded directory: every file
    written, changed file or backup, lies outside them. *)
Theorem never_writes_excluded (args : Args) (w : world) (p : Path) (c : str) :
  EvWrite p c ∈ trace (main args w).2 →
  EvWrite p c ∈ trace w ∨ should_skip p = false.
Proof.
  destruct (main_trace args w)
    as (evs & l1 & l2 & changes & -> & _ & Hpre & Hrec).
  intros [H|[H|[H|H]%elem_of_app]%elem_of_app]%elem_of_app; [by left | | |].
  - by apply list_elem_of_fmap in H as (? & ? & _).
  - right. destruct Hpre as [k Hk].
    assert (EvWrite p c ∈ apply_events changes) as H'.
    { rewrite Hk. apply elem_of_app. by left. }
    apply apply_events_writes in H' as (q & new & old & Hin & Hcase).
    rewrite Forall_forall in Hrec. destruct (Hrec _ Hin) as (_ & Hskip & _).
    simpl in Hskip.
    destruct Hcase as [[-> _]|[-> _]]; [done | by apply should_skip_backup].
  - by apply list_elem_of_fmap in H as (? & ? & _).
Qed.

Lemma replay_lookup (evs : list event) (fs : gmap Path str) (x : Path) :
  replay evs fs !! x =
  match last_write x evs with
  | Some c => Some c
  | None => fs !! x
  end.
Proof.
  revert fs. induction evs as [|e evs IH]; intros fs; [done|].
  unfold replay in *. cbn [foldl last_write]. rewrite IH.
  destruct (last_write x evs); [done|].
  destruct e as [p c|line]; [|done]. case_bool_decide as Hp.
  - subst p. by rewrite lookup_insert_eq.
  - by rewrite lookup_insert_ne.
Qed.

Lemma last_write_elem (x : Path) (evs : list event) (c : str) :
  last_write x evs = Some c → EvWrite x c ∈ evs.
Proof.
  induction evs as [|e evs IH]; simpl; [done|].
  destruct (last_write x evs) as [c'|].
  - intros [= ->]. right. by apply IH.
  - destruct e as [p c'|line]; [|done]. case_bool_decide; [|done].
    intros [= ->]. subst p. by left.
Qed.

Lemma last_write_is_Some (x : Path) (evs : list event) (c : str) :
  EvWrite x c ∈ evs → is_Some (last_write x evs).
Proof.
  induction evs as [|e evs IH]; [by intros ?%elem_of_nil|].
  intros [E|Hin]%elem_of_cons; simpl.
  - subst e. destruct (last_write x evs); [done|].
    by rewrite bool_decide_eq_true_2.
  - destruct (IH Hin) as [c' ->]. done.
Qed.

(** X15: a complete apply run over files that are valid paths without the
    suffix ".bak": the run returns 0, every changed file holds its new
    content, its backup holds the content the file had before the run,
    and every file that is neither a changed file nor a backup is as it
    was. *)
Theorem apply_leaves_new_and_backup (w : world) (changes : list change) :
  scan w (all_files_of w) [] = Ret changes →
  (∀ tr p, write_fails tr p = false) →
  Forall (λ c : change, valid_path c.1.1 ∧ suffix c.1.1 ≠ u ".bak") changes →
  (main (MkArgs false true) w).1 = Ret 0%Z
  ∧ (∀ p new old, (p, new, old) ∈ changes →
       files w !! p = Some old
       ∧ files (main (MkArgs false true) w).2 !! p = Some new
       ∧ files (main (MkArgs false true) w).2 !! backup_path p = Some old)
  ∧ (∀ x, (∀ c : change, c ∈ changes → x ≠ c.1.1 ∧ x ≠ backup_path c.1.1) →
       files (main (MkArgs false true) w).2 !! x = files w !! x).
Proof.
  intros Hs Hw Hv.
  pose proof (scan_spec _ _ _ _ Hs) as (recs & E & Hrec & _). simpl in E.
  subst recs. rewrite Forall_forall in Hrec. rewrite Forall_forall in Hv.
  assert ((main (MkArgs false true) w).1 = Ret 0%Z
          ∧ files (main (MkArgs false true) w).2
            = replay (apply_events changes) (files w)) as [Hret Hfiles].
  { destruct changes as [|c cs].
    { by rewrite main_no_changes. }
    rewrite (main_apply w c cs Hs).
    destruct (foldl_will_update (c :: cs) w) as [Hf _].
    destruct (apply_changes_spec (c :: cs) (foldl will_update w (c :: cs)))
      as (evs & _ & _ & Hfiles & Hok).
    pose proof (apply_changes_ok (c :: cs) (foldl will_update w (c :: cs)) Hw)
      as Hr.
    destruct (apply_changes (c :: cs) (foldl will_update w (c :: cs)))
      as [[[]|e] w2]; simpl in *.
    - split; [done|]. by rewrite Hfiles, Hf, Hok.
    - exfalso. assert (Raise e = Ret ()); [|done]. apply Hr.
      apply Forall_forall. intros x Hx. by apply Hv. }
  split; [done|]. rewrite Hfiles. split.
  - intros p new old Hin.
    destruct (Hrec _ Hin) as (Hold & _ & Hpt). simpl in Hold, Hpt.
    destruct (Hv _ Hin) as [Hvp Hsp]. simpl in Hvp, Hsp.
    destruct (apply_events_record changes p new old Hin) as [Hnew Hbak].
    split; [done|]. rewrite !replay_lookup. split.
    + destruct (last_write_is_Some _ _ _ Hnew) as [c Hc]. rewrite Hc.
      apply last_write_elem, apply_events_writes in Hc
        as (q & n & o & Hq & [[<- ->]|[-> ->]]).
      * destruct (Hrec _ Hq) as (Ho & _ & Hn). simpl in Ho, Hn.
        rewrite Hold in Ho. injection Ho as <-. congruence.
      * destruct (Hv _ Hq) as [Hvq _]. simpl in Hvq.
        by rewrite suffix_backup_path in Hsp.
    + destruct (last_write_is_Some _ _ _ Hbak) as [c Hc]. rewrite Hc.
      apply last_write_elem, apply_events_writes in Hc
        as (q & n & o & Hq & [[Eq ->]|[Eq ->]]).
      * destruct (Hv _ Hq) as [_ Hsq]. simpl in Hsq.
        rewrite <- Eq in Hsq. by rewrite suffix_backup_path in Hsq.
      * destruct (Hv _ Hq) as [Hvq _]. simpl in Hvq.
        apply backup_path_inj in Eq; [|done..]. subst q.
        destruct (Hrec _ Hq) as (Ho & _). simpl in Ho. congruence.
  - intros x Hx. rewrite replay_lookup.
    destruct (last_write x (apply_events changes)) as [c|] eqn:Hc; [|done].
    apply last_write_elem, apply_events_writes in Hc
      as (q & n & o & Hq & Hcase).
    destruct (Hx _ Hq) as [H1 H2]. simpl in H1, H2.
    by destruct Hcase as [[-> _]|[-> _]].
Qed.

(** ** Case *)

Lemma isspace_upper (c : N) : isspace (ascii_upper c) = isspace c.
Proof.
  unfold ascii_upper. case_match; [|done]. n_bools.
  assert (∀ x, 0x41 ≤ x ≤ 0x7A → isspace x = false) as Hl.
  { intros x Hx. unfold isspace.
    rewrite !orb_false_iff, !andb_false_iff, !N.leb_gt, !N.eqb_neq. lia. }
  rewrite !Hl by lia. done.
Qed.

Lemma lstrip_upper (s : str) :
  lstrip (ascii_upper <$> s) = ascii_upper <$> lstrip s.
Proof.
  induction s as [|c s IH]; [done|]. rewrite fmap_cons. cbn [lstrip].
  rewrite isspace_upper. destruct (isspace c); [done|]. by rewrite fmap_cons.
Qed.

Lemma strip_upper (s : str) :
  strip (ascii_upper <$> s) = ascii_upper <$> strip s.
Proof.
  unfold strip, rstrip.
  by rewrite lstrip_upper, <- fmap_reverse, lstrip_upper, fmap_reverse.
Qed.

Lemma same_letter_upper (x c : N) :
  0x61 ≤ c ≤ 0x7A → same_letter (ascii_upper x) c ↔ same_letter x c.
Proof.
  intros Hc. unfold same_letter, ascii_upper. case_match; n_bools; lia.
Qed.

Lemma same_word_upper (a w : str) :
  lower_word w → same_word (ascii_upper <$> a) w ↔ same_word a w.
Proof.
  unfold same_word. intros Hw. revert a.
  induction Hw as [|c w Hc Hw IH]; intros [|x a]; rewrite ?fmap_cons.
  - done.
  - split; intros H; by apply Forall2_cons_nil_inv in H.
  - split; intros H; by apply Forall2_nil_cons_inv in H.
  - rewrite !Forall2_cons, IH, same_letter_upper; done.
Qed.

Lemma separator_char_upper (c : N) :
  (isspace (ascii_upper c) = true ∨ ascii_upper c = 0x2D ∨ ascii_upper c = 0x5F)
  ↔ (isspace c = true ∨ c = 0x2D ∨ c = 0x5F).
Proof.
  rewrite isspace_upper. unfold ascii_upper. case_match; [|done]. n_bools.
  split; (intros [?|[?|?]]; [by left | lia | lia]).
Qed.

Lemma separator_upper (sep : str) :
  separator (ascii_upper <$> sep) ↔ separator sep.
Proof.
  unfold separator. destruct sep as [|c [|? ?]]; rewrite ?fmap_cons.
  - split; by left.
  - change (ascii_upper <$> []) with (@nil N).
    split; (intros [?|(x & [= <-] & Hx)]; [done|]); right.
    + exists c. split; [done|]. by apply separator_char_upper.
    + exists (ascii_upper c). split; [done|]. by apply separator_char_upper.
  - split; (intros [?|(x & ? & _)]; done).
Qed.

Lemma variant_text_upper (t : str) :
  variant_text (ascii_upper <$> t) ↔ variant_text t.
Proof.
  unfold variant_text, variant_text_of. split.
  - intros (a' & sep' & b' & E & Ha & Hsep & Hb).
    apply fmap_app_inv in E as (a & r & -> & Er & ->).
    symmetry in Er. apply fmap_app_inv in Er as (sep & b & -> & -> & ->).
    exists a, sep, b. split; [done|].
    rewrite same_word_upper in Ha by apply lower_online.
    rewrite same_word_upper in Hb by apply lower_privacy.
    by rewrite separator_upper in Hsep.
  - intros (a & sep & b & -> & Ha & Hsep & Hb).
    exists (ascii_upper <$> a), (ascii_upper <$> sep), (ascii_upper <$> b).
    rewrite !fmap_app. split; [done|].
    rewrite !same_word_upper by (apply lower_online || apply lower_privacy).
    by rewrite separator_upper.
Qed.

(** X6: the case of the ASCII letters of a tag plays no part in its being a
    variant. *)
Theorem is_variant_upper (s : str) :
  is_variant (VStr (ascii_upper <$> s)) = is_variant (VStr s).
Proof.
  assert (variant_entry (VStr (ascii_upper <$> s)) ↔ variant_entry (VStr s))
    as Hiff.
  { unfold variant_entry, variant_entry_of. split.
    - intros (s' & [= <-] & H). exists s. split; [done|].
      fold variant_text in *. by rewrite strip_upper, variant_text_upper in H.
    - intros (s' & [= <-] & H). eexists. split; [done|].
      fold variant_text in *. by rewrite strip_upper, variant_text_upper. }
  rewrite <- !is_variant_spec in Hiff.
  destruct (is_variant (VStr (ascii_upper <$> s))), (is_variant (VStr s));
    try done; [by destruct (proj1 Hiff eq_refl) | by destruct (proj2 Hiff eq_refl)].
Qed.

Lemma scan_no_change (w : world) (all_files : list Path)
  (changes : list change) :
  (∀ p text, p ∈ all_files → files w !! p = Some text →
     should_skip p = false → process_text text = Ret None) →
  scan w all_files changes = Ret changes.
Proof.
  induction all_files as [|p rest IH]; intros Hnone; [done|].
  cbn [scan]. destruct (negb (is_file w p) || should_skip p) eqn:Hc.
  { apply IH. intros q text Hq. apply Hnone. by right. }
  apply orb_false_iff in Hc as [Hfile Hskip].
  apply negb_false_iff, is_file_spec in Hfile as [text Hfile].
  unfold process_file, read_text. rewrite Hfile. cbn [mbind outcome_bind].
  rewrite (Hnone p text) by (done || by left).
  apply IH. intros q text' Hq. apply Hnone. by right.
Qed.

(** X16: when processing yields no change record for any discovered
    regular file outside the excluded directories, the run, in every
    mode, also with [--apply], returns 0, leaves the files as they are
    and prints only that no variant was found. *)
Theorem nothing_to_change (args : Args) (w : world) :
  (∀ p text, p ∈ all_files_of w → files w !! p = Some text →
     should_skip p = false → process_text text = Ret None) →
  main args w
  = (Ret 0%Z, World (files w)
                (trace w ++ [EvPrint (u "No files with tag variants found.")])).
Proof.
  intros Hnone. apply main_no_changes. by apply scan_no_change.
Qed.

End Program.

(** * The properties on concrete documents *)

Import Fixture.

(** C1 (the code against the claim): on the tag list ["online-privacy"]
    the Normalizer returns the same list with changed = true, and a
    document with that tag list yields a change record whose new
    content is its old content. *)
Theorem canonical_tag_reports_change :
  normalize_tags [VStr (u "online-privacy")]
  = Ret ([VStr (u "online-privacy")], true)
  ∧ process_text safe_load safe_dump doc_only_canonical
    = Ret (Some (doc_only_canonical, doc_only_canonical)).
Proof. split; by vm_compute. Qed.

Lemma second_run_rewrites_again_witness :
  process_text safe_load safe_dump doc_variant
  = Ret (Some (doc_canonical, doc_variant))
  ∧ process_text safe_load safe_dump doc_canonical
    = Ret (Some (doc_canonical, doc_canonical)).
Proof.
  apply (second_run_rewrites_again safe_load safe_dump doc_variant body
           front_variant
           [VStr (u "Online Privacy"); VStr (u "security")]
           [VStr (u "online-privacy"); VStr (u "security")]);
    by vm_compute.
Defined.

(** The claim of C3 as worded, with the separators a space, a hyphen, an
    underscore or nothing, fails on a tag whose words are separated by a
    tab: the entry is not a variant in that sense, and the loop replaces
    it all the same. *)
Lemma worded_pattern_misses_tab :
  ¬ replaced_in_place (variant_entry_of worded_separator)
      [VStr tabbed] (normalize_loop [VStr tabbed] [] false).1.
Proof.
  intros [_ H]. destruct (H O (VStr tabbed) eq_refl) as [_ Hkeep].
  assert (¬ variant_entry_of worded_separator (VStr tabbed)) as Hnot.
  { intros (s & [= <-] & a & sep & b & E & Ha & Hsep & Hb).
    apply Forall2_length in Ha, Hb. vm_compute in E.
    do 7 (destruct a as [|? a]; try done).
    simpl in E. injection E as <- <- <- <- <- <- E.
    destruct Hsep as [-> | [-> | [-> | ->]]]; try done.
    simpl in E. subst b. done. }
  specialize (Hkeep Hnot). by vm_compute in Hkeep.
Qed.

Lemma normalize_tags_deduplicates_witness :
  no_equal_entries [VStr (u "online-privacy"); VStr (u "security"); VBool true]
  ∧ first_occurrences
      (normalize_loop
         [VStr (u "online_privacy"); VStr (u "security");
          VStr (u "Online Privacy"); VBool true; VInt 1] [] false).1
      [VStr (u "online-privacy"); VStr (u "security"); VBool true].
Proof.
  apply (proj2 (normalize_tags_deduplicates
                  [VStr (u "online_privacy"); VStr (u "security");
                   VStr (u "Online Privacy"); VBool true; VInt 1])
           [VStr (u "online-privacy"); VStr (u "security"); VBool true] true).
  by vm_compute.
Defined.

Lemma unhashable_tag_raises_witness :
  process_text safe_load safe_dump doc_nested = Raise TypeError
  ∧ main safe_load safe_dump glob never_fails (MkArgs false true)
      (world_of doc_nested)
    = (Raise TypeError, world_of doc_nested).
Proof.
  destruct (unhashable_tag_raises safe_load safe_dump glob never_fails
              doc_nested body
              [(k_tags, VList [VList [VStr (u "a")];
                               VStr (u "Online Privacy")])]
              [VList [VStr (u "a")]; VStr (u "Online Privacy")]
              (VList [VStr (u "a")]))
    as [Hp Hw]; [by vm_compute | by vm_compute | by left | done |].
  split; [exact Hp|].
  destruct (Hw (world_of doc_nested) post) as (_ & _ & Hmain);
    [by vm_compute | by vm_compute |].
  apply (Hmain (MkArgs false true) [post]). by vm_compute.
Defined.

Lemma rewrite_touches_only_tags_witness :
  ∃ d d' body' new_tags,
    load_front_matter safe_load doc_variant = Ret (Some (VDict d), body')
    ∧ only_tags_replaced d d' new_tags
    ∧ doc_canonical = rebuilt safe_dump (VDict d') body'
    ∧ (lstrip (safe_dump (VDict d')) = safe_dump (VDict d') →
       doc_canonical = rebuilt_rstrip safe_dump (VDict d') body')
    ∧ leading_space_stripped body' (lstrip body')
    ∧ doc_variant = doc_variant.
Proof.
  apply (rewrite_touches_only_tags safe_load safe_dump doc_variant
           doc_canonical doc_variant).
  by vm_compute.
Defined.

Lemma backup_written_before_overwrite_witness :
  ∃ evs lines,
    trace (main safe_load safe_dump glob never_fails (MkArgs false true)
             (world_of doc_variant)).2
    = [] ++ (EvPrint <$> will_update_lines
                           [(post, doc_canonical, doc_variant);
                            (post, doc_canonical, doc_variant)])
      ++ evs ++ (EvPrint <$> lines)
    ∧ evs `prefix_of` apply_events [(post, doc_canonical, doc_variant);
                                    (post, doc_canonical, doc_variant)]
    ∧ backup_precedes [(post, doc_canonical, doc_variant);
                       (post, doc_canonical, doc_variant)] evs
    ∧ files (main safe_load safe_dump glob never_fails (MkArgs false true)
               (world_of doc_variant)).2
      = replay evs {[ post := doc_variant ]}
    ∧ ((∀ tr p, never_fails tr p = false) →
       Forall (λ c : change, valid_path c.1.1)
         [(post, doc_canonical, doc_variant);
          (post, doc_canonical, doc_variant)] →
       evs = apply_events [(post, doc_canonical, doc_variant);
                           (post, doc_canonical, doc_variant)]
       ∧ (main safe_load safe_dump glob never_fails (MkArgs false true)
            (world_of doc_variant)).1 = Ret 0%Z).
Proof.
  apply (backup_written_before_overwrite safe_load safe_dump glob never_fails
           (world_of doc_variant)
           [(post, doc_canonical, doc_variant);
            (post, doc_canonical, doc_variant)]).
  by vm_compute.
Defined.

Lemma dedup_alone_is_no_change_witness :
  normalize_tags [VStr (u "security"); VStr (u "security")]
  = Ret ([VStr (u "security")], false)
  ∧ process_text safe_load safe_dump doc_duplicates = Ret None.
Proof.
  assert (Forall (λ t, is_variant t = false)
            [VStr (u "security"); VStr (u "security")]) as Hnv.
  { repeat constructor. }
  assert (Forall (λ t, hashable t = true)
            [VStr (u "security"); VStr (u "security")]) as Hh.
  { repeat constructor. }
  destruct (dedup_alone_is_no_change safe_load safe_dump
              [VStr (u "security"); VStr (u "security")] Hnv)
    as (_ & Hret & Hdoc).
  split.
  - by vm_compute.
  - destruct (Hdoc doc_duplicates
                [(k_tags, VList [VStr (u "security"); VStr (u "security")])]
                body) as [_ Hnone]; [by vm_compute | by vm_compute |].
    by apply Hnone.
Defined.

(** ** The scenarios of the specification *)

Example scenario_substitution :
  normalize_tags [VStr (u "Online Privacy"); VStr (u "security")]
  = Ret ([VStr (u "online-privacy"); VStr (u "security")], true).
Proof. by vm_compute. Qed.

Example scenario_collapse :
  normalize_tags [VStr (u "online_privacy"); VStr (u "online-privacy")]
  = Ret ([VStr (u "online-privacy")], true).
Proof. by vm_compute. Qed.

Example scenario_no_variant :
  normalize_tags [VStr (u "privacy"); VStr (u "security")]
  = Ret ([VStr (u "privacy"); VStr (u "security")], false).
Proof. by vm_compute. Qed.

Example scenario_trimmed_and_mixed :
  normalize_tags [VStr (u "  onlinePRIVACY "); VBool true; VInt 1;
                  VStr (u "online--privacy"); VStr tabbed]
  = Ret ([VStr (u "online-privacy"); VBool true;
          VStr (u "online--privacy")], true).
Proof. by vm_compute. Qed.

Example scenario_unparsable :
  load_front_matter safe_load doc_broken = Ret (None, doc_broken)
  ∧ load_front_matter safe_load doc_scalar = Ret (None, doc_scalar)
  ∧ load_front_matter safe_load (u "Hello") = Ret (None, u "Hello")
  ∧ process_text safe_load safe_dump doc_broken = Ret None.
Proof. split_and!; by vm_compute. Qed.

Example scenario_apply :
  let r := main safe_load safe_dump glob never_fails (MkArgs false true)
             (world_of doc_variant) in
  r.1 = Ret 0%Z
  ∧ files r.2 !! post = Some doc_canonical
  ∧ files r.2 !! post_bak = Some doc_variant.
Proof. split_and!; by vm_compute. Qed.

Example scenario_dry_run :
  let r := main safe_load safe_dump glob never_fails (MkArgs true true)
             (world_of doc_variant) in
  r.1 = Ret 0%Z
  ∧ files r.2 !! post = Some doc_variant
  ∧ files r.2 !! post_bak = None.
Proof. split_and!; by vm_compute. Qed.

(** A second apply run finds the file again and replaces the backup of
    the original by the content of the first run. *)
Example second_apply_loses_the_original :
  let r1 := main safe_load safe_dump glob never_fails (MkArgs false true)
              (world_of doc_variant) in
  let r2 := main safe_load safe_dump glob never_fails (MkArgs false true)
              (World (files r1.2) []) in
  files r1.2 !! post_bak = Some doc_variant
  ∧ files r2.2 !! post_bak = Some doc_canonical.
Proof. split; by vm_compute. Qed.

(** ** The further properties on concrete documents *)

Lemma normalize_tags_stable_witness :
  normalize_tags [VStr (u "online-privacy"); VStr (u "security"); VBool true]
  = Ret ([VStr (u "online-privacy"); VStr (u "security"); VBool true], true).
Proof.
  apply (normalize_tags_stable
           [VStr (u "online_privacy"); VStr (u "security");
            VStr (u "Online Privacy"); VBool true; VInt 1]).
  by vm_compute.
Defined.

Lemma changed_iff_canonical_witness :
  false = true ↔ VStr CANONICAL ∈ [VStr (u "security"); VInt 7].
Proof.
  apply (changed_iff_canonical
           [VStr (u "security"); VInt 7; VStr (u "security")]).
  by vm_compute.
Defined.

Lemma normalize_tags_length_witness :
  (length [VStr (u "online-privacy"); VStr (u "a")]
   ≤ length [VStr (u "online privacy"); VStr (u "a"); VStr (u "ONLINEPRIVACY")])%nat
  ∧ ([VStr (u "online privacy"); VStr (u "a"); VStr (u "ONLINEPRIVACY")] ≠ []
     → [VStr (u "online-privacy"); VStr (u "a")] ≠ []).
Proof.
  apply (normalize_tags_length
           [VStr (u "online privacy"); VStr (u "a"); VStr (u "ONLINEPRIVACY")]
           [VStr (u "online-privacy"); VStr (u "a")] true).
  by vm_compute.
Defined.

Lemma normalize_tags_entries_witness :
  (∀ x, x ∈ [VStr (u "online-privacy"); VStr (u "a"); VInt 3] →
     x = VStr CANONICAL
     ∨ (x ∈ [VStr (u "online privacy"); VStr (u "a"); VInt 3; VStr (u "a")]
        ∧ is_variant x = false))
  ∧ (∀ s, VStr s ∈ [VStr (u "online privacy"); VStr (u "a"); VInt 3;
                     VStr (u "a")] →
       is_variant (VStr s) = false →
       VStr s ∈ [VStr (u "online-privacy"); VStr (u "a"); VInt 3]).
Proof.
  apply (normalize_tags_entries
           [VStr (u "online privacy"); VStr (u "a"); VInt 3; VStr (u "a")]
           [VStr (u "online-privacy"); VStr (u "a"); VInt 3] true).
  by vm_compute.
Defined.

Lemma is_variant_padding_witness :
  is_variant (VStr ([9; 32] ++ u "Online_Privacy" ++ [10]))
  = is_variant (VStr (u "Online_Privacy")).
Proof.
  apply (is_variant_padding [9; 32] (u "Online_Privacy") [10]);
    repeat constructor.
Defined.

Lemma no_metadata_no_change_witness :
  process_text safe_load safe_dump doc_scalar = Ret None.
Proof.
  apply no_metadata_no_change. right; right.
  exists yaml_scalar, body. split.
  - exists (yaml_scalar ++ u "---" ++ body). split; [done|].
    apply find_sep_spec. by vm_compute.
  - right. exists (VStr (u "just a sentence")). by vm_compute.
Defined.

Lemma no_tag_list_no_change_witness :
  process_text Untagged.safe_load safe_dump Untagged.doc_title = Ret None
  ∧ process_text Untagged.safe_load safe_dump Untagged.doc_no_tags = Ret None.
Proof.
  split.
  - apply (no_tag_list_no_change Untagged.safe_load safe_dump
             Untagged.doc_title body [(k_title, VStr (u "Notes"))]);
      [by vm_compute | by intros t l].
  - apply (no_tag_list_no_change Untagged.safe_load safe_dump
             Untagged.doc_no_tags body [(k_tags, VList [])]);
      [by vm_compute | by intros t l].
Defined.

Lemma rebuilt_is_read_back_witness :
  load_front_matter safe_load
    (rebuilt safe_dump (VDict front_canonical) body)
  = Ret (Some (VDict front_canonical), NL ++ lstrip body).
Proof.
  apply rebuilt_is_read_back.
  - apply find_sep_None. by vm_compute.
  - by vm_compute.
Defined.

Lemma backup_path_distinct_witness :
  with_suffix post (suffix post ++ u ".bak") = Ret (backup_path post)
  ∧ name (backup_path post) = name post ++ u ".bak"
  ∧ suffix (backup_path post) = u ".bak"
  ∧ take (length post - 1) (backup_path post) = take (length post - 1) post
  ∧ backup_path post ≠ post
  ∧ (backup_path post = backup_path Untagged.site_page →
     post = Untagged.site_page).
Proof.
  apply backup_path_distinct; (split; [done | by vm_compute]).
Defined.

Lemma scan_records_witness :
  Forall (record_of safe_load safe_dump
            (Untagged.world_site doc_variant))
    [(post, doc_canonical, doc_variant)]
  ∧ (λ c : change, c.1.1) <$> [(post, doc_canonical, doc_variant)]
    `sublist_of` [Untagged.site_page; post]
  ∧ ∀ p text new, p ∈ [Untagged.site_page; post] →
      files (Untagged.world_site doc_variant) !! p = Some text →
      should_skip p = false →
      process_text safe_load safe_dump text = Ret (Some (new, text)) →
      (p, new, text) ∈ [(post, doc_canonical, doc_variant)].
Proof.
  apply (scan_records safe_load safe_dump (Untagged.world_site doc_variant)
           [Untagged.site_page; post] [(post, doc_canonical, doc_variant)]).
  by vm_compute.
Defined.

Lemma no_apply_no_write_witness :
  main safe_load safe_dump glob never_fails (MkArgs false false)
    (world_of doc_variant)
  = main safe_load safe_dump glob never_fails (MkArgs true false)
      (world_of doc_variant)
  ∧ files (main safe_load safe_dump glob never_fails (MkArgs false false)
             (world_of doc_variant)).2
    = files (world_of doc_variant)
  ∧ ∀ p c,
      EvWrite p c
      ∈ trace (main safe_load safe_dump glob never_fails (MkArgs false false)
                 (world_of doc_variant)).2 →
      EvWrite p c ∈ trace (world_of doc_variant).
Proof.
  by apply (no_apply_no_write safe_load safe_dump glob never_fails
              (MkArgs false false) (world_of doc_variant)).
Defined.

Lemma never_writes_excluded_witness :
  EvWrite post_bak doc_variant ∈ trace (world_of doc_variant)
  ∨ should_skip post_bak = false.
Proof.
  apply (never_writes_excluded safe_load safe_dump glob never_fails
           (MkArgs false true) (world_of doc_variant) post_bak doc_variant).
  vm_compute. right. right. by left.
Defined.

Lemma apply_leaves_new_and_backup_witness :
  (main safe_load safe_dump Untagged.glob never_fails (MkArgs false true)
     (Untagged.world_site doc_variant)).1 = Ret 0%Z
  ∧ (∀ p new old, (p, new, old) ∈ [(post, doc_canonical, doc_variant);
     (post, doc_canonical, doc_variant)] →
       files (Untagged.world_site doc_variant) !! p = Some old
       ∧ files (main safe_load safe_dump Untagged.glob never_fails
                  (MkArgs false true) (Untagged.world_site doc_variant)).2
         !! p = Some new
       ∧ files (main safe_load safe_dump Untagged.glob never_fails
                  (MkArgs false true) (Untagged.world_site doc_variant)).2
         !! backup_path p = Some old)
  ∧ (∀ x, (∀ c : change, c ∈ [(post, doc_canonical, doc_variant);
     (post, doc_canonical, doc_variant)] →
             x ≠ c.1.1 ∧ x ≠ backup_path c.1.1) →
       files (main safe_load safe_dump Untagged.glob never_fails
                (MkArgs false true) (Untagged.world_site doc_variant)).2
       !! x = files (Untagged.world_site doc_variant) !! x).
Proof.
  apply (apply_leaves_new_and_backup safe_load safe_dump Untagged.glob
           never_fails (Untagged.world_site doc_variant)
           [(post, doc_canonical, doc_variant);
     (post, doc_canonical, doc_variant)]).
  - by vm_compute.
  - done.
  - repeat constructor; by vm_compute.
Defined.

Lemma nothing_to_change_witness :
  main safe_load safe_dump glob never_fails (MkArgs false true)
    (world_of doc_duplicates)
  = (Ret 0%Z,
     World (files (world_of doc_duplicates))
       (trace (world_of doc_duplicates)
        ++ [EvPrint (u "No files with tag variants found.")])).
Proof.
  apply (nothing_to_change safe_load safe_dump glob never_fails
           (MkArgs false true) (world_of doc_duplicates)).
  intros p text Hp Hf _.
  assert (p = post) as ->.
  { vm_compute in Hp.
    repeat (apply elem_of_cons in Hp as [->|Hp]; [done|]).
    by apply elem_of_nil in Hp. }
  vm_compute in Hf. injection Hf as <-. by vm_compute.
Defined.

Lemma dry_run_takes_precedence_witness :
  main safe_load safe_dump glob never_fails (MkArgs true true)
    (world_of doc_variant)
  = (Ret 0%Z,
     World {[ post := doc_variant ]}
       [EvPrint (u "Will update: _posts/a.md");
        EvPrint (u "Will update: _posts/a.md");
        EvPrint (NL ++ u "Dry-run only. Run with --apply to perform changes.")])
  ∧ trace (main safe_load safe_dump glob never_fails (MkArgs true true)
             (world_of doc_variant)).2
    = trace (world_of doc_variant)
      ++ (EvPrint <$> dry_run_report [(post, doc_canonical, doc_variant);
                                      (post, doc_canonical, doc_variant)]).
Proof.
  split; [by vm_compute|].
  destruct (dry_run_takes_precedence safe_load safe_dump glob never_fails
              (world_of doc_variant)) as (_ & _ & _ & _ & Htrace & _).
  apply Htrace. by vm_compute.
Defined.
